(** * easound: the escape-room countdown and its cue scheduler (src/App.jsx)

    A shallow embedding of the React component [App]: its state
    variables and refs become one record, every handler and effect
    becomes a function on that record, and the browser pieces the
    component talks to (interval timers, audio playback) become explicit
    fields: the set of live interval ids and the log of audio actions.

    JavaScript numbers are modelled as rationals [Q]: the duration typed
    into the number input need not be an integer, and [timeLeft] is
    [duration * 60] minus the number of ticks.  [===] on numbers is
    [Qeq_bool].  The whole numbers of the schedule builder
    ([parseInt] and the product by 60) are rounded as doubles round
    them ([roundToDouble]).  The arithmetic of the countdown
    ([duration * 60], [timeLeft - 1], the progress) is exact; the
    statements that depend on it carry the condition under which the
    doubles of the source are exact too ([exactDuration],
    [exactEvent]). *)

From Stdlib Require Import Ascii String QArith Lqa.
From stdpp Require Import gmap strings pretty list.

Open Scope string_scope.
Open Scope list_scope.

(** ** Data *)

(** [CUE_OPTIONS]: the catalogue offered on the setup screen. *)
Record CueOption := { id : string; label : string }.

Definition CUE_OPTIONS : list CueOption :=
  [ {| id := "40min";    label := "40 Minutes Remaining" |};
    {| id := "30min";    label := "30 Minutes Remaining" |};
    {| id := "10min";    label := "10 Minutes Remaining" |};
    {| id := "5min";     label := "5 Minutes Remaining" |};
    {| id := "blackout"; label := "Blackout" |};
    {| id := "gameover"; label := "Game Over" |} ].

(** The result of [Number(e.target.value)]. *)
Inductive JsNumber :=
| NaN
| Finite (q : Q).

(** What reaches the speakers: every [play()] / [pause()] call. *)
Inductive AudioAction :=
| PlayMain
| PauseMain
| PlayCue (cueId : string)
| PlayTrap.

(** [useState] cells, [useRef] cells and the browser state they touch. *)
Record App := {
  duration       : Q;                  (* useState(60), minutes *)
  selectedCues   : list string;        (* useState([]) *)
  timeLeft       : Q;                  (* useState(0), seconds *)
  running        : bool;               (* useState(false) *)
  trapMessages   : list string;        (* useState([]) *)
  intervalRef    : option nat;         (* useRef(null) *)
  mainAudioRef   : bool;               (* useRef(null): is a track loaded *)
  cueScheduleRef : list (string * Q);  (* useRef({}), insertion ordered *)
  playedCuesRef  : gset string;        (* useRef(new Set()) *)
  cueAudioRefs   : gset string;        (* useRef({}): ids with an Audio *)
  timers         : gset nat;           (* live setInterval ids *)
  nextTimer      : nat;                (* next id setInterval hands out *)
  audioLog       : list AudioAction    (* play/pause calls, oldest first *)
}.

Definition initial : App :=
  {| duration := 60; selectedCues := []; timeLeft := 0; running := false;
     trapMessages := []; intervalRef := None; mainAudioRef := false;
     cueScheduleRef := []; playedCuesRef := ∅; cueAudioRefs := ∅;
     timers := ∅; nextTimer := 0%nat; audioLog := [] |}.

(** ** The schedule object *)

(** [schedule[cueId]]: own-property lookup. *)
Fixpoint schedule_get (cueId : string) (schedule : list (string * Q)) : option Q :=
  match schedule with
  | [] => None
  | (k, v) :: rest =>
      if decide (k = cueId) then Some v else schedule_get cueId rest
  end.

(** [schedule[cueId] = v]: an existing key keeps its place and takes the
    new value, a new key goes last.  (None of the keys written by
    [handleStart] is an array index, so [Object.entries] lists them in
    this order.) *)
Fixpoint schedule_set (cueId : string) (v : Q) (schedule : list (string * Q))
  : list (string * Q) :=
  match schedule with
  | [] => [(cueId, v)]
  | (k, w) :: rest =>
      if decide (k = cueId) then (k, v) :: rest
      else (k, w) :: schedule_set cueId v rest
  end.

(** ** [cueId.match(/^([0-9]+)min$/)] and [parseInt(match[1], 10)] *)

Definition is_digit (c : ascii) : bool :=
  (48 <=? nat_of_ascii c)%nat && (nat_of_ascii c <=? 57)%nat.

Definition digit_value (c : ascii) : Z :=
  Z.of_nat (nat_of_ascii c) - 48.

(** The longest prefix of digits, and what follows it. *)
Fixpoint span_digits (s : string) : string * string :=
  match s with
  | "" => ("", "")
  | String c rest =>
      if is_digit c then
        let '(ds, tl) := span_digits rest in (String c ds, tl)
      else ("", s)
  end.

(** The capture group of [/^([0-9]+)min$/], when the id matches. *)
Definition match_min (cueId : string) : option string :=
  let '(ds, tl) := span_digits cueId in
  if bool_decide (ds ≠ "") && bool_decide (tl = "min") then Some ds else None.

Fixpoint parseInt_from (acc : Z) (ds : string) : Z :=
  match ds with
  | "" => acc
  | String c rest => parseInt_from (10 * acc + digit_value c) rest
  end.

(** The whole number a string of decimal digits denotes. *)
Definition decimalValue (ds : string) : Z := parseInt_from 0 ds.

(** The double nearest to a whole number, ties to the even mantissa:
    whole numbers below 2^53 in magnitude are doubles; a larger one
    keeps its 53 leading bits.  (From about 1.8e308 on the source has
    [Infinity], which is outside the numbers of this model.) *)
Definition roundToDouble (z : Z) : Z :=
  let a := Z.abs z in
  if (a <? 9007199254740992)%Z then z
  else
    let e := (Z.log2 a - 52)%Z in
    let q := (a / 2 ^ e)%Z in
    let r := (a mod 2 ^ e)%Z in
    let half := (2 ^ (e - 1))%Z in
    let q' :=
      if (r <? half)%Z then q
      else if (half <? r)%Z then (q + 1)%Z
      else if Z.even q then q else (q + 1)%Z in
    (Z.sgn z * (q' * 2 ^ e))%Z.

(** [parseInt(ds, 10)] on a string of decimal digits: the Number value
    for the whole number the digits denote. *)
Definition parseInt10 (ds : string) : Z := roundToDouble (decimalValue ds).

(** ** Handlers *)

(** [handleToggleCue] *)
Definition handleToggleCue (cueId : string) (s : App) : App :=
  {| duration := duration s;
     selectedCues :=
       (if bool_decide (cueId ∈ selectedCues s)
        then filter (λ i, i ≠ cueId) (selectedCues s)
        else selectedCues s ++ [cueId]);
     timeLeft := timeLeft s; running := running s;
     trapMessages := trapMessages s; intervalRef := intervalRef s;
     mainAudioRef := mainAudioRef s; cueScheduleRef := cueScheduleRef s;
     playedCuesRef := playedCuesRef s; cueAudioRefs := cueAudioRefs s;
     timers := timers s; nextTimer := nextTimer s; audioLog := audioLog s |}.

(** [handleDurationChange]: [if (value > 0) setDuration(value)]. *)
Definition handleDurationChange (value : JsNumber) (s : App) : App :=
  match value with
  | Finite v =>
      if Qlt_le_dec 0%Q v then
        {| duration := v;
           selectedCues := selectedCues s;
           timeLeft := timeLeft s; running := running s;
           trapMessages := trapMessages s; intervalRef := intervalRef s;
           mainAudioRef := mainAudioRef s; cueScheduleRef := cueScheduleRef s;
           playedCuesRef := playedCuesRef s; cueAudioRefs := cueAudioRefs s;
           timers := timers s; nextTimer := nextTimer s; audioLog := audioLog s |}
      else s
  | NaN => s
  end.

(** One pass of the [forEach] body of [handleStart] over the schedule. *)
Definition schedule_cue (schedule : list (string * Q)) (cueId : string)
  : list (string * Q) :=
  if decide (cueId = "blackout") then schedule_set cueId 60 schedule
  else if decide (cueId = "gameover") then schedule_set cueId 5 schedule
  else match match_min cueId with
       | Some ds =>
           schedule_set cueId
             (inject_Z (roundToDouble (parseInt10 ds * 60))) schedule
       | None => schedule
       end.

(** The schedule [handleStart] builds from the selection. *)
Definition buildSchedule (selected : list string) : list (string * Q) :=
  fold_left schedule_cue selected [].

(** Names every object inherits from [Object.prototype]: reading one of
    them from the audio cache is truthy although nothing was cached. *)
Definition object_prototype_keys : list string :=
  [ "constructor"; "__proto__"; "hasOwnProperty"; "isPrototypeOf";
    "propertyIsEnumerable"; "toLocaleString"; "toString"; "valueOf";
    "__defineGetter__"; "__defineSetter__"; "__lookupGetter__";
    "__lookupSetter__" ].

(** One pass of the preload part of the [forEach] body:
    [if (!cueAudioRefs.current[cueId]) cueAudioRefs.current[cueId] = new Audio(..)]. *)
Definition preload_cue (cache : gset string) (cueId : string) : gset string :=
  if bool_decide (cueId ∈ cache) || bool_decide (cueId ∈ object_prototype_keys)
  then cache else {[cueId]} ∪ cache.

(** [handleStart] *)
Definition handleStart (s : App) : App :=
  let totalSeconds := (duration s * 60)%Q in
  {| duration := duration s;
     selectedCues := selectedCues s;
     timeLeft := totalSeconds;
     running := true;
     trapMessages := trapMessages s;
     intervalRef := Some (nextTimer s);
     mainAudioRef := true;
     cueScheduleRef := buildSchedule (selectedCues s);
     playedCuesRef := playedCuesRef s;
     cueAudioRefs := fold_left preload_cue (selectedCues s) (cueAudioRefs s);
     timers := {[nextTimer s]} ∪ timers s;
     nextTimer := S (nextTimer s);
     audioLog := audioLog s ++ [PlayMain] |}.

(** The interval callback: [setTimeLeft(prev => prev - 1)]. *)
Definition intervalCallback (s : App) : App :=
  {| duration := duration s; selectedCues := selectedCues s;
     timeLeft := (timeLeft s - 1)%Q;
     running := running s;
     trapMessages := trapMessages s; intervalRef := intervalRef s;
     mainAudioRef := mainAudioRef s; cueScheduleRef := cueScheduleRef s;
     playedCuesRef := playedCuesRef s; cueAudioRefs := cueAudioRefs s;
     timers := timers s; nextTimer := nextTimer s; audioLog := audioLog s |}.

(** The [trap_triggered] socket listener. *)
Definition onTrapTriggered (message : string) (s : App) : App :=
  {| duration := duration s; selectedCues := selectedCues s;
     timeLeft := timeLeft s; running := running s;
     trapMessages := trapMessages s ++ [message];
     intervalRef := intervalRef s;
     mainAudioRef := mainAudioRef s; cueScheduleRef := cueScheduleRef s;
     playedCuesRef := playedCuesRef s; cueAudioRefs := cueAudioRefs s;
     timers := timers s; nextTimer := nextTimer s;
     audioLog := audioLog s ++ [PlayTrap] |}.

(** ** The countdown effect: [useEffect(..., [timeLeft, running])] *)

(** [clearInterval(intervalRef.current)] *)
Definition clearInterval (handle : option nat) (live : gset nat) : gset nat :=
  match handle with
  | Some h => live ∖ {[h]}
  | None => live
  end.

(** One pass of the [for ... of Object.entries(cueScheduleRef.current)]
    body, on the played set and the audio log.  [cueAudio] is read from
    the cache; a scheduled id is never an inherited name
    ([scheduled_not_inherited] below). *)
Definition match_cue (now : Q) (cache : gset string)
    (acc : gset string * list AudioAction) (entry : string * Q)
  : gset string * list AudioAction :=
  let '(played, log) := acc in
  let '(cueId, triggerAt) := entry in
  let shouldTrigger := Qeq_bool now triggerAt in
  let notPlayedYet := negb (bool_decide (cueId ∈ played)) in
  if shouldTrigger && notPlayedYet then
    ({[cueId]} ∪ played,
     if bool_decide (cueId ∈ cache) then log ++ [PlayCue cueId] else log)
  else acc.

Definition match_cues (now : Q) (cache : gset string)
    (schedule : list (string * Q)) (acc : gset string * list AudioAction)
  : gset string * list AudioAction :=
  fold_left (match_cue now cache) schedule acc.

(** The effect body. *)
Definition cueEffect (s : App) : App :=
  if negb (running s) then s
  else
    let finished := Qeq_bool (timeLeft s) 0 in
    let log1 :=
      if finished && mainAudioRef s then audioLog s ++ [PauseMain]
      else audioLog s in
    let result :=
      match_cues (timeLeft s) (cueAudioRefs s) (cueScheduleRef s)
                 (playedCuesRef s, log1) in
    {| duration := duration s; selectedCues := selectedCues s;
       timeLeft := timeLeft s;
       running := (if finished then false else running s);
       trapMessages := trapMessages s; intervalRef := intervalRef s;
       mainAudioRef := mainAudioRef s; cueScheduleRef := cueScheduleRef s;
       playedCuesRef := fst result;
       cueAudioRefs := cueAudioRefs s;
       timers :=
         (if finished then clearInterval (intervalRef s) (timers s)
          else timers s);
       nextTimer := nextTimer s;
       audioLog := snd result |}.

(** React compares the dependency array [[timeLeft, running]] of a
    render with that of the render before it. *)
Definition deps_changed (prev s : App) : bool :=
  negb (Qeq_bool (timeLeft prev) (timeLeft s))
  || negb (eqb (running prev) (running s)).

(** Render after a state change, run the effect when its dependencies
    changed, and render again when the effect itself set state. *)
Fixpoint commit (fuel : nat) (prev s : App) : App :=
  match fuel with
  | O => s
  | S fuel' =>
      if deps_changed prev s then commit fuel' s (cueEffect s) else s
  end.

(** Two rounds settle every update ([commit_settles] below). *)
Definition rerender (prev s : App) : App := commit 2 prev s.

(** ** Events *)

Inductive Event :=
| ClickStart
| ToggleCue (cueId : string)
| ChangeDuration (value : JsNumber)
| Tick (handle : nat)
| TrapTriggered (message : string).

(** Which events can be delivered: the setup screen (duration input,
    one checkbox per catalogue entry, Start button) is rendered only
    while [running] is false; an interval fires only while its id is
    live; the socket listener is always there. *)
Definition enabled (e : Event) (s : App) : bool :=
  match e with
  | ClickStart => negb (running s)
  | ToggleCue cueId =>
      negb (running s) && bool_decide (cueId ∈ map id CUE_OPTIONS)
  | ChangeDuration _ => negb (running s)
  | Tick h => bool_decide (h ∈ timers s)
  | TrapTriggered _ => true
  end.

Definition handler (e : Event) (s : App) : App :=
  match e with
  | ClickStart => handleStart s
  | ToggleCue cueId => handleToggleCue cueId s
  | ChangeDuration value => handleDurationChange value s
  | Tick _ => intervalCallback s
  | TrapTriggered message => onTrapTriggered message s
  end.

(** One event, handled to completion before the next one. *)
Definition dispatch (e : Event) (s : App) : App :=
  if enabled e s then rerender s (handler e s) else s.

Definition run (events : list Event) (s : App) : App :=
  fold_left (λ st e, dispatch e st) events s.

(** The cue ids among the audio actions: what was fired, in order. *)
Definition firedCues (log : list AudioAction) : list string :=
  omap (λ a, match a with PlayCue c => Some c | _ => None end) log.

(** [progressPercent] *)
Definition progressPercent (s : App) : Q :=
  if running s then ((1 - timeLeft s / (duration s * 60)) * 100)%Q else 0%Q.

(** ** Auxiliary notions for the statements *)

(** Strings made of decimal digits only. *)
Fixpoint all_digits (s : string) : bool :=
  match s with
  | "" => true
  | String c rest => is_digit c && all_digits rest
  end.

(** The trigger time the [if] chain of [handleStart] gives an id. *)
Definition triggerAt_of (cueId : string) : option Q :=
  if decide (cueId = "blackout") then Some 60%Q
  else if decide (cueId = "gameover") then Some 5%Q
  else (λ ds, inject_Z (roundToDouble (parseInt10 ds * 60))) <$> match_min cueId.

(** The [pause()] of the main track when the countdown ends. *)
Definition pause_actions (s : App) : list AudioAction :=
  if Qeq_bool (timeLeft s) 0 && mainAudioRef s then [PauseMain] else [].

(** The audio actions of one step (or of several): what the log gained. *)
Definition newActions (s s' : App) : list AudioAction :=
  drop (length (audioLog s)) (audioLog s').

(** A cue fires during a step when its audio is played in it. *)
Definition fires (cueId : string) (s s' : App) : Prop :=
  PlayCue cueId ∈ newActions s s'.

(** The messages of the trap events among [evs], in order. *)
Definition trapsOf (evs : list Event) : list string :=
  omap (λ e, match e with TrapTriggered m => Some m | _ => None end) evs.

(** ** The invariant of the component *)

(** What every render of the component satisfies, up to the check of
    [timeLeft === 0] that the effect is about to make. *)
Record wf (s : App) : Prop := {
  wf_duration : (0 < duration s)%Q;
  wf_idle : running s = false → timers s = ∅;
  wf_running :
    running s = true → ∃ h, intervalRef s = Some h ∧ timers s = {[h]};
  wf_cache : ∀ c T, (c, T) ∈ cueScheduleRef s → c ∈ cueAudioRefs s;
  wf_keys : NoDup (fst <$> cueScheduleRef s);
  wf_log : NoDup (firedCues (audioLog s));
  wf_fired : ∀ c, PlayCue c ∈ audioLog s ↔ c ∈ playedCuesRef s
}.

(** After the effect has run, a countdown that is still running has
    time left. *)
Record Inv (s : App) : Prop := {
  inv_wf : wf s;
  inv_nonzero : running s = true → ¬ (timeLeft s == 0)%Q
}.

(** ** Scenarios used below *)

(** A first run: [gameover] ticked, one minute, started and counted
    down to zero. *)
Definition first_run : list Event :=
  [ToggleCue "gameover"; ChangeDuration (Finite 1); ClickStart]
  ++ replicate 60 (Tick 0%nat).


(** ** [formatTime] *)

(** [s.padStart(targetLength, fill)] for a one-character [fill]. *)
Definition padStart (targetLength : nat) (fill : ascii) (s : string) : string :=
  Nat.iter (targetLength - String.length s) (String fill) s.

(** [formatTime], on a whole number of seconds (what [timeLeft] holds
    when the duration is a whole number of minutes): [Math.floor] of
    the quotient is [Z.div], [%] takes the sign of the dividend as
    [Z.rem] does, and [String] of an integer is its decimal numeral. *)
Definition formatTime (seconds : Z) : string :=
  let m := padStart 2 "0" (pretty (seconds `div` 60)%Z) in
  let s := padStart 2 "0" (pretty (Z.rem seconds 60)) in
  m +:+ ":" +:+ s.

(** ** More notions for the statements *)

(** Is the main track sounding, going by the log: the last of its
    [play()] / [pause()] calls is a [play()]. *)
Definition mainPlaying (log : list AudioAction) : bool :=
  fold_left (λ b a, match a with
                    | PlayMain => true
                    | PauseMain => false
                    | _ => b
                    end) log false.

(** The cues of a schedule that are due at [now] and not yet played,
    in the order of the schedule. *)
Definition dueCues (now : Q) (played : gset string)
    (schedule : list (string * Q)) : list string :=
  fst <$> filter (λ e, Qeq_bool now e.2 && negb (bool_decide (e.1 ∈ played)) = true)
                 schedule.

(** The state without the trap messages and the audio log: all that
    the countdown reads. *)
Definition countdownState (s : App) : App :=
  {| duration := duration s; selectedCues := selectedCues s;
     timeLeft := timeLeft s; running := running s;
     trapMessages := []; intervalRef := intervalRef s;
     mainAudioRef := mainAudioRef s; cueScheduleRef := cueScheduleRef s;
     playedCuesRef := playedCuesRef s; cueAudioRefs := cueAudioRefs s;
     timers := timers s; nextTimer := nextTimer s; audioLog := [] |}.

Definition isTrap (e : Event) : bool :=
  match e with TrapTriggered _ => true | _ => false end.

(** The events that are not trap events. *)
Definition withoutTraps (evs : list Event) : list Event :=
  filter (λ e, isTrap e = false) evs.

(** ** The controls on screen *)




(** ** Notions for the statements on starts and on exact arithmetic *)





(** [k] zeros in front of a string. *)
Definition leadingZeros (k : nat) (s : string) : string :=
  Nat.iter k (String "0") s.

(** Durations on which the exact arithmetic of this model is the
    arithmetic of the source: the doubles [q / 2^j] whose product by 60
    is below 2^53.  The product, and every [timeLeft - 1] from it down
    to 0, is then a double, so nothing is rounded as long as [timeLeft]
    is not negative; below 0 a rounded [timeLeft] stays below 0.  The
    bound on [j] keeps the quotient of the progress within the
    doubles. *)
Definition exactDuration (d : Q) : Prop :=
  ∃ j q : nat,
    (j ≤ 900)%nat
    ∧ (d * inject_Z (2 ^ Z.of_nat j) == inject_Z (Z.of_nat q))%Q
    ∧ (60 * Z.of_nat q < 9007199254740992)%Z.

(** Events that enter no other duration: a value the input accepts is
    such a double.  Over a run of such events the model and the source
    compute the same numbers. *)
Definition exactEvent (e : Event) : Prop :=
  match e with
  | ChangeDuration (Finite v) => (0 < v)%Q → exactDuration v
  | _ => True
  end.

(** * Properties *)

(** ** Rendering settles *)

Lemma deps_changed_refl s : deps_changed s s = false.
Proof.
  unfold deps_changed.
  rewrite (proj2 (Qeq_bool_iff _ _) (Qeq_refl _)).
  by destruct (running s).
Qed.

Lemma deps_unchanged s s' :
  timeLeft s' = timeLeft s → running s' = running s →
  deps_changed s s' = false.
Proof.
  intros Ht Hr. unfold deps_changed. rewrite Ht, Hr.
  apply deps_changed_refl.
Qed.

Lemma cueEffect_idle s : running s = false → cueEffect s = s.
Proof. intros H. unfold cueEffect. by rewrite H. Qed.

Lemma cueEffect_timeLeft s : timeLeft (cueEffect s) = timeLeft s.
Proof. unfold cueEffect. by destruct (running s). Qed.

Lemma cueEffect_running s :
  running (cueEffect s) = running s && negb (Qeq_bool (timeLeft s) 0).
Proof.
  unfold cueEffect. destruct (running s) eqn:Hr; simpl; [|done].
  by destruct (Qeq_bool (timeLeft s) 0).
Qed.

(** An effect run that changed the dependencies has stopped the
    countdown, so the next run returns at once. *)
Lemma cueEffect_twice s :
  deps_changed s (cueEffect s) = true → cueEffect (cueEffect s) = cueEffect s.
Proof.
  intros H. apply cueEffect_idle.
  unfold deps_changed in H. rewrite cueEffect_timeLeft in H.
  rewrite (proj2 (Qeq_bool_iff _ _) (Qeq_refl _)) in H. simpl in H.
  rewrite cueEffect_running in *.
  destruct (running s); simpl in *; [|done].
  by destruct (Qeq_bool (timeLeft s) 0).
Qed.

Lemma rerender_eq prev s :
  rerender prev s = if deps_changed prev s then cueEffect s else s.
Proof.
  unfold rerender. simpl. destruct (deps_changed prev s); [|done].
  destruct (deps_changed s (cueEffect s)) eqn:H; [|done].
  by apply cueEffect_twice.
Qed.

(** More rounds than two change nothing: the render loop terminates. *)
Lemma commit_settles n prev s : commit (2 + n) prev s = rerender prev s.
Proof.
  rewrite rerender_eq. simpl.
  destruct (deps_changed prev s); [|done].
  destruct (deps_changed s (cueEffect s)) eqn:H; [|done].
  rewrite (cueEffect_twice _ H).
  destruct n; simpl; [done|].
  by rewrite deps_changed_refl.
Qed.

(** ** What each event does *)

Lemma dispatch_disabled e s : enabled e s = false → dispatch e s = s.
Proof. intros H. unfold dispatch. by rewrite H. Qed.

Lemma dispatch_ClickStart s :
  running s = false → dispatch ClickStart s = cueEffect (handleStart s).
Proof.
  intros H. unfold dispatch. simpl. rewrite H. simpl.
  rewrite rerender_eq. unfold deps_changed. simpl. rewrite H.
  by rewrite orb_true_r.
Qed.

Lemma dispatch_Tick h s :
  h ∈ timers s → dispatch (Tick h) s = cueEffect (intervalCallback s).
Proof.
  intros H. unfold dispatch. simpl. rewrite bool_decide_eq_true_2 by done.
  rewrite rerender_eq. unfold deps_changed. simpl.
  destruct (Qeq_bool (timeLeft s) (timeLeft s - 1)) eqn:E; [|done].
  apply Qeq_bool_iff in E. lra.
Qed.

Lemma dispatch_ToggleCue c s :
  enabled (ToggleCue c) s = true →
  dispatch (ToggleCue c) s = handleToggleCue c s.
Proof.
  intros H. unfold dispatch. rewrite H. rewrite rerender_eq.
  by rewrite deps_unchanged.
Qed.

Lemma dispatch_TrapTriggered m s :
  dispatch (TrapTriggered m) s = onTrapTriggered m s.
Proof.
  unfold dispatch. simpl enabled. cbv iota. rewrite rerender_eq.
  by rewrite deps_unchanged.
Qed.

Lemma handleDurationChange_deps v s :
  deps_changed s (handleDurationChange v s) = false.
Proof.
  destruct v as [|v]; simpl; [apply deps_changed_refl|].
  destruct (Qlt_le_dec 0 v); by apply deps_unchanged.
Qed.

Lemma dispatch_ChangeDuration v s :
  running s = false →
  dispatch (ChangeDuration v) s = handleDurationChange v s.
Proof.
  intros H. unfold dispatch. simpl. rewrite H. simpl.
  rewrite rerender_eq. by rewrite handleDurationChange_deps.
Qed.

Lemma run_app evs1 evs2 s : run (evs1 ++ evs2) s = run evs2 (run evs1 s).
Proof. apply fold_left_app. Qed.

Lemma run_snoc evs e s : run (evs ++ [e]) s = dispatch e (run evs s).
Proof. by rewrite run_app. Qed.

(** Case analysis on an event: disabled, or one of the five handlers
    followed (for Start and ticks) by the effect. *)
Ltac by_event e s He :=
  destruct (enabled e s) eqn:He;
  [ destruct e as [|?c|?v|?h|?m]; simpl in He;
    [ apply negb_true_iff in He; rewrite (dispatch_ClickStart s He)
    | rewrite (dispatch_ToggleCue _ s He)
    | apply negb_true_iff in He; rewrite (dispatch_ChangeDuration _ s He)
    | apply bool_decide_eq_true in He; rewrite (dispatch_Tick _ s He)
    | rewrite dispatch_TrapTriggered ]
  | rewrite (dispatch_disabled e s He) ].

Lemma handleDurationChange_frame v s :
  selectedCues (handleDurationChange v s) = selectedCues s
  ∧ cueScheduleRef (handleDurationChange v s) = cueScheduleRef s
  ∧ cueAudioRefs (handleDurationChange v s) = cueAudioRefs s
  ∧ running (handleDurationChange v s) = running s
  ∧ timeLeft (handleDurationChange v s) = timeLeft s
  ∧ mainAudioRef (handleDurationChange v s) = mainAudioRef s
  ∧ audioLog (handleDurationChange v s) = audioLog s.
Proof. destruct v as [|v]; simpl; [done|]. by destruct (Qlt_le_dec 0 v). Qed.

(** ** The schedule object *)

Lemma schedule_get_set_eq c v sch : schedule_get c (schedule_set c v sch) = Some v.
Proof.
  induction sch as [|[k w] rest IH]; simpl.
  - by rewrite decide_True.
  - destruct (decide (k = c)) as [->|Hne]; simpl.
    + by rewrite decide_True.
    + by rewrite decide_False.
Qed.

Lemma schedule_get_set_ne c c' v sch :
  c ≠ c' → schedule_get c' (schedule_set c v sch) = schedule_get c' sch.
Proof.
  intros Hne. induction sch as [|[k w] rest IH]; simpl.
  - by rewrite decide_False.
  - destruct (decide (k = c)) as [->|Hk]; simpl.
    + by rewrite !decide_False.
    + by rewrite IH.
Qed.

Lemma schedule_set_keys c v sch :
  ((fst <$> schedule_set c v sch) = (fst <$> sch)) ∨
  ((c ∉ (fst <$> sch)) ∧ (fst <$> schedule_set c v sch) = (fst <$> sch) ++ [c]).
Proof.
  induction sch as [|[k w] rest IH]; csimpl.
  - right. split; [apply not_elem_of_nil | done].
  - destruct (decide (k = c)) as [->|Hk]; csimpl; [by left|].
    destruct IH as [->|[Hnin ->]]; [by left|right].
    split; [|done]. rewrite elem_of_cons. intros [?|?]; by subst.
Qed.

Lemma schedule_set_NoDup c v sch :
  NoDup (fst <$> sch) → NoDup (fst <$> schedule_set c v sch).
Proof.
  intros H. destruct (schedule_set_keys c v sch) as [->|[Hnin ->]]; [done|].
  apply NoDup_app. split_and!; [done| |apply NoDup_singleton].
  intros x Hx ->%list_elem_of_singleton. done.
Qed.

Lemma schedule_get_elem c T sch :
  schedule_get c sch = Some T → (c, T) ∈ sch.
Proof.
  induction sch as [|[k w] rest IH]; simpl; [done|].
  destruct (decide (k = c)) as [->|Hk].
  - intros [= ->]. apply elem_of_cons. by left.
  - intros H. apply elem_of_cons. right. by apply IH.
Qed.

Lemma schedule_elem_get c T sch :
  NoDup (fst <$> sch) → (c, T) ∈ sch → schedule_get c sch = Some T.
Proof.
  induction sch as [|[k w] rest IH]; csimpl.
  - intros _ H. by apply elem_of_nil in H.
  - intros [Hk Hnd]%NoDup_cons [H|H]%elem_of_cons.
    + injection H as -> ->. by rewrite decide_True.
    + destruct (decide (k = c)) as [->|Hne]; [|by apply IH].
      destruct Hk. apply list_elem_of_fmap. by exists (c, T); split; [done|assumption].
Qed.

(** ** The regular expression *)

Lemma span_digits_spec s ds tl :
  span_digits s = (ds, tl) →
  s = ds +:+ tl ∧ all_digits ds = true ∧
  match tl with "" => True | String c _ => is_digit c = false end.
Proof.
  revert ds tl. induction s as [|c rest IH]; simpl; intros ds tl.
  - by intros [= <- <-].
  - destruct (is_digit c) eqn:Hc.
    + destruct (span_digits rest) as [ds' tl'] eqn:E.
      intros [= <- <-]. destruct (IH _ _ eq_refl) as (-> & Hd & Htl).
      simpl. by rewrite Hc, Hd.
    + by intros [= <- <-].
Qed.

Lemma span_digits_app ds tl :
  all_digits ds = true →
  match tl with "" => True | String c _ => is_digit c = false end →
  span_digits (ds +:+ tl) = (ds, tl).
Proof.
  intros Hd Htl. induction ds as [|c rest IH]; simpl in *.
  - destruct tl as [|c tl]; [done|]. simpl. by rewrite Htl.
  - apply andb_true_iff in Hd as [Hc Hd]. by rewrite Hc, IH.
Qed.

(** [/^([0-9]+)min$/] matches exactly the ids made of one or more
    decimal digits followed by [min], and captures the digits. *)
Lemma match_min_spec cueId ds :
  match_min cueId = Some ds ↔
  cueId = ds +:+ "min" ∧ ds ≠ "" ∧ all_digits ds = true.
Proof.
  unfold match_min. split.
  - destruct (span_digits cueId) as [ds' tl] eqn:E.
    apply span_digits_spec in E as (-> & Hd & _).
    destruct (bool_decide (ds' ≠ "")) eqn:H1; simpl; [|done].
    destruct (bool_decide (tl = "min")) eqn:H2; simpl; [|done].
    apply bool_decide_eq_true in H1, H2. by intros [= <-]; subst.
  - intros (-> & Hne & Hd). rewrite span_digits_app by done.
    by rewrite !bool_decide_eq_true_2.
Qed.

Lemma schedule_cue_eq sch c :
  schedule_cue sch c =
  match triggerAt_of c with Some v => schedule_set c v sch | None => sch end.
Proof.
  unfold schedule_cue, triggerAt_of.
  repeat case_decide; try done. by destruct (match_min c).
Qed.

Lemma fold_schedule_get c sel acc :
  schedule_get c (fold_left schedule_cue sel acc) =
  if decide (c ∈ sel) then
    match triggerAt_of c with Some v => Some v | None => schedule_get c acc end
  else schedule_get c acc.
Proof.
  revert acc. induction sel as [|x sel IH]; intros acc; cbn [fold_left].
  - rewrite decide_False; [done | apply not_elem_of_nil].
  - rewrite IH, schedule_cue_eq.
    destruct (decide (x = c)) as [->|Hxc].
    + rewrite (decide_True (P := c ∈ c :: sel)) by apply list_elem_of_here.
      destruct (triggerAt_of c) as [v|];
        rewrite ?schedule_get_set_eq; by case_decide.
    + assert (schedule_get c
        match triggerAt_of x with
        | Some v => schedule_set x v acc | None => acc end
        = schedule_get c acc) as ->.
      { destruct (triggerAt_of x); [by apply schedule_get_set_ne | done]. }
      destruct (decide (c ∈ sel)) as [Hin|Hnin].
      * rewrite decide_True; [done | by apply list_elem_of_further].
      * rewrite decide_False; [done|].
        rewrite elem_of_cons. intros [?|?]; by subst.
Qed.

Lemma buildSchedule_get c sel :
  schedule_get c (buildSchedule sel) =
  if decide (c ∈ sel) then triggerAt_of c else None.
Proof.
  unfold buildSchedule. rewrite fold_schedule_get.
  case_decide; [|done]. by destruct (triggerAt_of c).
Qed.

Lemma fold_schedule_NoDup sel acc :
  NoDup (fst <$> acc) → NoDup (fst <$> fold_left schedule_cue sel acc).
Proof.
  revert acc. induction sel as [|x sel IH]; intros acc H; simpl; [done|].
  apply IH. rewrite schedule_cue_eq.
  destruct (triggerAt_of x); [by apply schedule_set_NoDup | done].
Qed.

Lemma buildSchedule_NoDup sel : NoDup (fst <$> buildSchedule sel).
Proof. apply fold_schedule_NoDup. simpl. apply NoDup_nil_2. Qed.

(** ** The matcher loop *)

Lemma firedCues_app l1 l2 : firedCues (l1 ++ l2) = firedCues l1 ++ firedCues l2.
Proof. apply omap_app. Qed.

Lemma elem_of_firedCues c log : c ∈ firedCues log ↔ PlayCue c ∈ log.
Proof.
  unfold firedCues. rewrite list_elem_of_omap. split.
  - intros (a & Ha & Hc). destruct a; simplify_eq. done.
  - intros H. by exists (PlayCue c).
Qed.

Section matcher.
Variables (now : Q) (cache : gset string).

Lemma match_cues_cons c0 T0 sch played log :
  match_cues now cache ((c0, T0) :: sch) (played, log) =
  match_cues now cache sch
    (if Qeq_bool now T0 && negb (bool_decide (c0 ∈ played))
     then ({[c0]} ∪ played,
           if bool_decide (c0 ∈ cache) then log ++ [PlayCue c0] else log)
     else (played, log)).
Proof. reflexivity. Qed.

(** What one run of the loop does to the played set and to the log:
    the new actions [new] are exactly one [PlayCue] per cue that enters
    the played set, and a cue enters it exactly when some entry of the
    schedule carries it with a trigger time equal to [now]. *)
Lemma match_cues_spec sch played log :
  ∃ new,
    snd (match_cues now cache sch (played, log)) = log ++ new
    ∧ (∀ c, c ∈ fst (match_cues now cache sch (played, log)) ↔
            c ∈ played ∨ ∃ T, (c, T) ∈ sch ∧ (now == T)%Q)
    ∧ (∀ a, a ∈ new →
            ∃ c, a = PlayCue c ∧ (c ∉ played) ∧ c ∈ cache
                 ∧ c ∈ fst (match_cues now cache sch (played, log)))
    ∧ (∀ c, c ∈ fst (match_cues now cache sch (played, log)) →
            c ∉ played → c ∈ cache → PlayCue c ∈ new)
    ∧ NoDup (firedCues new).
Proof.
  revert played log.
  induction sch as [|[c0 T0] sch IH]; intros played log.
  - exists []. simpl. rewrite app_nil_r. split_and!; try done.
    + intros c. split; [by left|]. intros [?|(T & H & _)]; [done|].
      by apply elem_of_nil in H.
    + intros a H. by apply elem_of_nil in H.
    + apply NoDup_nil_2.
  - rewrite match_cues_cons.
    destruct (Qeq_bool now T0 && negb (bool_decide (c0 ∈ played))) eqn:Hfire.
    + apply andb_true_iff in Hfire as [Heq Hnp].
      apply Qeq_bool_iff in Heq.
      apply negb_true_iff, bool_decide_eq_false in Hnp.
      set (l0 := if bool_decide (c0 ∈ cache) then [PlayCue c0] else []).
      assert ((if bool_decide (c0 ∈ cache)
               then log ++ [PlayCue c0] else log) = log ++ l0) as ->.
      { unfold l0. destruct (bool_decide (c0 ∈ cache)); [done|].
        by rewrite app_nil_r. }
      destruct (IH ({[c0]} ∪ played) (log ++ l0))
        as (new' & Hlog & Hiff & Hnew & Hplay & Hnd).
      assert (∀ a, a ∈ l0 → a = PlayCue c0 ∧ c0 ∈ cache) as Hl0.
      { intros a. unfold l0. case_bool_decide; [|by intros ?%elem_of_nil].
        by intros ->%list_elem_of_singleton. }
      exists (l0 ++ new'). split_and!.
      * by rewrite Hlog, app_assoc.
      * intros c. rewrite Hiff, elem_of_union, elem_of_singleton.
        setoid_rewrite elem_of_cons. split.
        -- intros [[->|?]|(T & ? & ?)].
           ++ right. exists T0. split; [by left|done].
           ++ by left.
           ++ right. exists T. split; [by right|done].
        -- intros [?|(T & [[= -> ->]|?] & ?)].
           ++ left. by right.
           ++ left. by left.
           ++ right. by exists T.
      * intros a [Ha|Ha]%elem_of_app.
        -- destruct (Hl0 _ Ha) as [-> Hc]. exists c0. split_and!; try done.
           apply Hiff. left. apply elem_of_union. left.
           by apply elem_of_singleton.
        -- destruct (Hnew _ Ha) as (c & -> & Hc & ? & ?).
           exists c. split_and!; try done.
           intros ?. apply Hc, elem_of_union. by right.
      * intros c Hc Hnp' Hcache. apply elem_of_app.
        destruct (decide (c = c0)) as [->|Hne].
        -- left. unfold l0. rewrite bool_decide_eq_true_2 by done.
           apply list_elem_of_here.
        -- right. apply Hplay; [done| |done].
           rewrite elem_of_union, elem_of_singleton. by intros [?|?].
      * rewrite firedCues_app. apply NoDup_app. split_and!; [| |done].
        -- unfold l0. case_bool_decide; simpl;
             [apply NoDup_singleton | apply NoDup_nil_2].
        -- intros c Hc1 Hc2. apply elem_of_firedCues in Hc1, Hc2.
           destruct (Hl0 _ Hc1) as [[= ->] _].
           destruct (Hnew _ Hc2) as (c & [= <-] & Hc & _).
           apply Hc, elem_of_union. left. by apply elem_of_singleton.
    + destruct (IH played log) as (new' & Hlog & Hiff & Hnew & Hplay & Hnd).
      exists new'. split_and!; try done.
      intros c. rewrite Hiff. setoid_rewrite elem_of_cons. split.
      * intros [?|(T & ? & ?)]; [by left|].
        right. exists T. split; [by right|done].
      * intros [?|(T & [[= -> ->]|?] & HT)]; [by left| |right; by exists T].
        left. apply andb_false_iff in Hfire as [Hne|Hpl].
        -- apply Qeq_bool_iff in HT. congruence.
        -- by apply negb_false_iff, bool_decide_eq_true in Hpl.
Qed.
End matcher.

(** ** The effect as a whole *)

Lemma cueEffect_frame s :
  duration (cueEffect s) = duration s
  ∧ selectedCues (cueEffect s) = selectedCues s
  ∧ trapMessages (cueEffect s) = trapMessages s
  ∧ intervalRef (cueEffect s) = intervalRef s
  ∧ mainAudioRef (cueEffect s) = mainAudioRef s
  ∧ cueScheduleRef (cueEffect s) = cueScheduleRef s
  ∧ cueAudioRefs (cueEffect s) = cueAudioRefs s
  ∧ nextTimer (cueEffect s) = nextTimer s.
Proof. unfold cueEffect. by destruct (running s). Qed.

Lemma cueEffect_timers s :
  timers (cueEffect s) =
  if running s && Qeq_bool (timeLeft s) 0
  then clearInterval (intervalRef s) (timers s) else timers s.
Proof. unfold cueEffect. by destruct (running s). Qed.

Lemma cueEffect_spec s :
  running s = true →
  ∃ new,
    audioLog (cueEffect s) = (audioLog s ++ pause_actions s) ++ new
    ∧ (∀ c, c ∈ playedCuesRef (cueEffect s) ↔
            c ∈ playedCuesRef s
            ∨ ∃ T, (c, T) ∈ cueScheduleRef s ∧ (timeLeft s == T)%Q)
    ∧ (∀ a, a ∈ new →
            ∃ c, a = PlayCue c ∧ (c ∉ playedCuesRef s) ∧ c ∈ cueAudioRefs s
                 ∧ c ∈ playedCuesRef (cueEffect s))
    ∧ (∀ c, c ∈ playedCuesRef (cueEffect s) → c ∉ playedCuesRef s →
            c ∈ cueAudioRefs s → PlayCue c ∈ new)
    ∧ NoDup (firedCues new).
Proof.
  intros Hr. unfold cueEffect. rewrite Hr. cbn [negb].
  assert ((if Qeq_bool (timeLeft s) 0 && mainAudioRef s
           then audioLog s ++ [PauseMain] else audioLog s)
          = audioLog s ++ pause_actions s) as ->.
  { unfold pause_actions.
    destruct (Qeq_bool (timeLeft s) 0 && mainAudioRef s); [done|].
    by rewrite app_nil_r. }
  cbn [audioLog playedCuesRef].
  apply match_cues_spec.
Qed.

Lemma firedCues_pause s : firedCues (pause_actions s) = [].
Proof.
  unfold pause_actions.
  by destruct (Qeq_bool (timeLeft s) 0 && mainAudioRef s).
Qed.

(** ** The invariant of the component *)

Lemma wf_initial : wf initial.
Proof.
  split; simpl; try done.
  - intros c T H. by apply elem_of_nil in H.
  - apply NoDup_nil_2.
  - apply NoDup_nil_2.
  - intros c. split; intros H; [by apply elem_of_nil in H|].
    by apply not_elem_of_empty in H.
Qed.

Lemma Inv_initial : Inv initial.
Proof. split; [apply wf_initial | done]. Qed.

Lemma cueEffect_Inv s : wf s → Inv (cueEffect s).
Proof.
  intros Hwf.
  destruct (running s) eqn:Hr; cycle 1.
  { rewrite cueEffect_idle by done. split; [done | congruence]. }
  destruct Hwf as [Hd Hidle Hrun Hcache Hkeys Hlog Hfired].
  destruct (cueEffect_spec s Hr) as (new & Hl & Hiff & Hnew & Hplay & Hnd).
  destruct (cueEffect_frame s) as (Ed & _ & _ & Ei & _ & Es & Ec & _).
  destruct (Hrun Hr) as (h & Hh & Ht).
  split; [split|].
  - by rewrite Ed.
  - rewrite cueEffect_running, cueEffect_timers, Hr. simpl.
    destruct (Qeq_bool (timeLeft s) 0); [|done].
    intros _. rewrite Hh, Ht. simpl. apply difference_diag_L.
  - rewrite cueEffect_running, cueEffect_timers, Hr, Ei. simpl.
    destruct (Qeq_bool (timeLeft s) 0); [done|]. intros _. by exists h.
  - rewrite Es, Ec. apply Hcache.
  - by rewrite Es.
  - rewrite Hl, !firedCues_app, firedCues_pause, app_nil_r.
    apply NoDup_app. split_and!; [done| |done].
    intros c Hc1 Hc2. apply elem_of_firedCues in Hc1, Hc2.
    destruct (Hnew _ Hc2) as (c' & [= <-] & Hnp & _).
    by apply Hnp, Hfired.
  - intros c. rewrite Hl, !elem_of_app. split.
    + intros [[H|H]|H].
      * apply Hiff. left. by apply Hfired.
      * unfold pause_actions in H.
        destruct (Qeq_bool (timeLeft s) 0 && mainAudioRef s);
          [by apply list_elem_of_singleton in H | by apply elem_of_nil in H].
      * by destruct (Hnew _ H) as (c' & [= <-] & _ & _ & ?).
    + intros H. destruct (decide (c ∈ playedCuesRef s)) as [Hin|Hnin].
      * left. left. by apply Hfired.
      * right. apply Hplay; [done..|].
        apply Hiff in H as [?|(T & HT & _)]; [done|]. by eapply Hcache.
  - rewrite cueEffect_running, cueEffect_timeLeft, Hr. simpl.
    destruct (Qeq_bool (timeLeft s) 0) eqn:E; [done|]. intros _ H.
    apply Qeq_bool_iff in H. congruence.
Qed.

(** ** [handleStart]: schedule and preloaded audio *)

Lemma buildSchedule_elem c T sel :
  (c, T) ∈ buildSchedule sel ↔ c ∈ sel ∧ triggerAt_of c = Some T.
Proof.
  split.
  - intros H. apply schedule_elem_get in H; [|apply buildSchedule_NoDup].
    rewrite buildSchedule_get in H. by case_decide.
  - intros [Hin HT]. apply schedule_get_elem.
    rewrite buildSchedule_get. by rewrite decide_True.
Qed.

(** A scheduled id is [blackout], [gameover] or ends in [min]: it is
    never a name inherited from [Object.prototype]. *)
Lemma scheduled_not_inherited c T :
  triggerAt_of c = Some T → c ∉ object_prototype_keys.
Proof.
  intros H Hin. unfold object_prototype_keys in Hin.
  repeat (apply elem_of_cons in Hin as [->|Hin]; [by vm_compute in H|]).
  by apply elem_of_nil in Hin.
Qed.

Lemma preload_cue_mono c x cache : c ∈ cache → c ∈ preload_cue cache x.
Proof.
  intros H. unfold preload_cue.
  destruct (_ || _); [done|]. apply elem_of_union. by right.
Qed.

Lemma fold_preload_mono c sel cache :
  c ∈ cache → c ∈ fold_left preload_cue sel cache.
Proof.
  revert cache. induction sel as [|x sel IH]; intros cache H; simpl; [done|].
  by apply IH, preload_cue_mono.
Qed.

Lemma fold_preload_elem c sel cache :
  c ∈ sel → c ∉ object_prototype_keys → c ∈ fold_left preload_cue sel cache.
Proof.
  intros Hin Hproto. revert cache.
  induction sel as [|x sel IH]; intros cache; [by apply elem_of_nil in Hin|].
  apply elem_of_cons in Hin as [<-|Hin]; simpl; [|by apply IH].
  apply fold_preload_mono. unfold preload_cue.
  rewrite (bool_decide_eq_false_2 (c ∈ object_prototype_keys)) by done.
  rewrite orb_false_r. case_bool_decide; [done|].
  apply elem_of_union. left. by apply elem_of_singleton.
Qed.

Lemma firedCues_snoc_other log a :
  (∀ c, a ≠ PlayCue c) → firedCues (log ++ [a]) = firedCues log.
Proof.
  intros H. rewrite firedCues_app.
  destruct a; simpl; rewrite ?app_nil_r; try done. by destruct (H cueId).
Qed.

Lemma elem_of_snoc_other (log : list AudioAction) a c :
  a ≠ PlayCue c → PlayCue c ∈ log ++ [a] ↔ PlayCue c ∈ log.
Proof.
  intros H. rewrite elem_of_app, list_elem_of_singleton.
  split; [|by left]. intros [?|?]; [done | congruence].
Qed.

Lemma handleStart_wf s : wf s → running s = false → wf (handleStart s).
Proof.
  intros [Hd Hidle Hrun Hcache Hkeys Hlog Hfired] Hr.
  split; simpl; try done.
  - intros _. exists (nextTimer s). split; [done|].
    rewrite (Hidle Hr). apply (right_id_L ∅ (∪)).
  - intros c T [Hin HT]%buildSchedule_elem.
    apply fold_preload_elem; [done|]. by eapply scheduled_not_inherited.
  - apply buildSchedule_NoDup.
  - by rewrite firedCues_snoc_other.
  - intros c. by rewrite elem_of_snoc_other.
Qed.

Lemma intervalCallback_wf s : wf s → wf (intervalCallback s).
Proof. intros []. by split. Qed.

Lemma handleToggleCue_Inv c s : Inv s → Inv (handleToggleCue c s).
Proof. intros [[] ?]. by split; [split|]. Qed.

Lemma handleDurationChange_Inv v s : Inv s → Inv (handleDurationChange v s).
Proof.
  intros H. destruct v as [|v]; simpl; [done|].
  destruct (Qlt_le_dec 0 v); [|done].
  destruct H as [[] ?]. by split; [split|].
Qed.

Lemma onTrapTriggered_Inv m s : Inv s → Inv (onTrapTriggered m s).
Proof.
  intros [[] ?]. split; [split|]; simpl; try done.
  - by rewrite firedCues_snoc_other.
  - intros c. by rewrite elem_of_snoc_other.
Qed.

(** Every event keeps the invariant. *)
Lemma dispatch_Inv e s : Inv s → Inv (dispatch e s).
Proof.
  intros H. destruct (enabled e s) eqn:He;
    [|by rewrite dispatch_disabled].
  destruct e as [|c|v|h|m]; simpl in He.
  - apply negb_true_iff in He. rewrite dispatch_ClickStart by done.
    apply cueEffect_Inv, handleStart_wf; [apply H | done].
  - rewrite dispatch_ToggleCue by done. by apply handleToggleCue_Inv.
  - apply negb_true_iff in He. rewrite dispatch_ChangeDuration by done.
    by apply handleDurationChange_Inv.
  - apply bool_decide_eq_true in He. rewrite dispatch_Tick by done.
    apply cueEffect_Inv, intervalCallback_wf, H.
  - rewrite dispatch_TrapTriggered. by apply onTrapTriggered_Inv.
Qed.

Lemma run_Inv evs s : Inv s → Inv (run evs s).
Proof.
  revert s. induction evs as [|e evs IH]; intros s H; simpl; [done|].
  by apply IH, dispatch_Inv.
Qed.

Lemma reachable_Inv evs : Inv (run evs initial).
Proof. apply run_Inv, Inv_initial. Qed.

Lemma tick_running h s : Inv s → h ∈ timers s → running s = true.
Proof.
  intros HI Hh. destruct (running s) eqn:Hr; [done|].
  rewrite (wf_idle s (inv_wf s HI) Hr) in Hh. by apply not_elem_of_empty in Hh.
Qed.

(** ** Firing *)

Lemma newActions_app s s' l : audioLog s' = audioLog s ++ l → newActions s s' = l.
Proof. intros H. unfold newActions. rewrite H. apply drop_app_length. Qed.

(** An event either leaves the countdown alone, or changes [timeLeft] /
    [running] and is followed by one run of the effect. *)
Lemma dispatch_cases e s :
  Inv s →
  (playedCuesRef (dispatch e s) = playedCuesRef s
   ∧ cueScheduleRef (dispatch e s) = cueScheduleRef s
   ∧ timeLeft (dispatch e s) = timeLeft s
   ∧ running (dispatch e s) = running s
   ∧ timers (dispatch e s) = timers s
   ∧ ∃ l, audioLog (dispatch e s) = audioLog s ++ l ∧ firedCues l = [])
  ∨ (∃ s1 a,
       dispatch e s = cueEffect s1 ∧ wf s1 ∧ running s1 = true
       ∧ playedCuesRef s1 = playedCuesRef s
       ∧ audioLog s1 = audioLog s ++ a ∧ firedCues a = []
       ∧ ((e = ClickStart ∧ running s = false ∧ s1 = handleStart s)
          ∨ (∃ h, e = Tick h ∧ h ∈ timers s ∧ running s = true
                  ∧ s1 = intervalCallback s))).
Proof.
  intros HI.
  assert (playedCuesRef s = playedCuesRef s
   ∧ cueScheduleRef s = cueScheduleRef s
   ∧ timeLeft s = timeLeft s
   ∧ running s = running s
   ∧ timers s = timers s
   ∧ ∃ l, audioLog s = audioLog s ++ l ∧ firedCues l = []) as Hsame.
  { split_and!; try done. exists []. by rewrite app_nil_r. }
  destruct (enabled e s) eqn:He;
    [|left; by rewrite dispatch_disabled].
  destruct e as [|c|v|h|m]; simpl in He.
  - apply negb_true_iff in He. right.
    exists (handleStart s), [PlayMain]. rewrite dispatch_ClickStart by done.
    split_and!; try done; [|by left].
    apply handleStart_wf; [apply HI | done].
  - left. rewrite dispatch_ToggleCue by done. simpl.
    split_and!; try done. exists []. by rewrite app_nil_r.
  - left. apply negb_true_iff in He. rewrite dispatch_ChangeDuration by done.
    destruct v as [|v]; simpl; [done|]. destruct (Qlt_le_dec 0 v); [|done].
    simpl. split_and!; try done. exists []. by rewrite app_nil_r.
  - apply bool_decide_eq_true in He. right.
    assert (running s = true) as Hr.
    { destruct (running s) eqn:Hr; [done|].
      rewrite (wf_idle s (inv_wf s HI) Hr) in He.
      by apply not_elem_of_empty in He. }
    exists (intervalCallback s), []. rewrite dispatch_Tick by done.
    split_and!; try done.
    + apply intervalCallback_wf, HI.
    + simpl. by rewrite app_nil_r.
    + right. by exists h.
  - left. rewrite dispatch_TrapTriggered. simpl.
    split_and!; try done. by exists [PlayTrap].
Qed.

(** One step: the log only grows, the played set only grows, a cue's
    audio is played exactly when the cue enters the played set, and
    that happens only while [timeLeft] equals its trigger time. *)
Lemma dispatch_fires e s :
  Inv s →
  ∃ new,
    audioLog (dispatch e s) = audioLog s ++ new
    ∧ NoDup (firedCues new)
    ∧ (∀ c, PlayCue c ∈ new ↔
            c ∈ playedCuesRef (dispatch e s) ∧ c ∉ playedCuesRef s)
    ∧ (∀ c, c ∈ playedCuesRef s → c ∈ playedCuesRef (dispatch e s))
    ∧ (∀ c, c ∈ playedCuesRef (dispatch e s) → c ∉ playedCuesRef s →
            ∃ T, schedule_get c (cueScheduleRef (dispatch e s)) = Some T
                 ∧ (timeLeft (dispatch e s) == T)%Q).
Proof.
  intros HI.
  destruct (dispatch_cases e s HI)
    as [(Hp & _ & _ & _ & _ & l & Hl & Hf)
       |(s1 & a & -> & Hwf & Hr & Hp & Ha & Hf & _)].
  - exists l. rewrite Hp. split_and!; try done.
    + rewrite Hf. apply NoDup_nil_2.
    + intros c. split; [|by intros []].
      intros H%elem_of_firedCues. rewrite Hf in H. by apply elem_of_nil in H.
  - destruct (cueEffect_spec s1 Hr) as (new & Hl & Hiff & Hnew & Hplay & Hnd).
    destruct (cueEffect_frame s1) as (_ & _ & _ & _ & _ & Es & _).
    assert (firedCues (pause_actions s1) = []) as Hpa by apply firedCues_pause.
    rewrite Hp in *.
    exists (a ++ pause_actions s1 ++ new). split_and!.
    + rewrite Hl, Ha. by rewrite <- !app_assoc.
    + by rewrite !firedCues_app, Hf, Hpa.
    + intros c. rewrite <- elem_of_firedCues, !firedCues_app, Hf, Hpa.
      simpl. rewrite elem_of_firedCues. split.
      * intros H. by destruct (Hnew _ H) as (c' & [= <-] & ? & _ & ?).
      * intros [H1 H2]. apply Hplay; [done..|].
        apply Hiff in H1 as [?|(T & HT & _)]; [done|].
        by eapply (wf_cache s1).
    + intros c H. apply Hiff. by left.
    + intros c H1 H2. apply Hiff in H1 as [?|(T & HT & Heq)]; [done|].
      exists T. rewrite Es, cueEffect_timeLeft. split; [|done].
      apply schedule_elem_get; [apply Hwf | done].
Qed.

(** ** Decimal numerals *)

Lemma append_cons c (s1 s2 : string) : String c s1 +:+ s2 = String c (s1 +:+ s2).
Proof. reflexivity. Qed.

Lemma append_assoc (s1 s2 s3 : string) : (s1 +:+ s2) +:+ s3 = s1 +:+ s2 +:+ s3.
Proof. induction s1 as [|c s1 IH]; [done|]. by rewrite !append_cons, IH. Qed.

Lemma append_nil_r (s : string) : s +:+ "" = s.
Proof. induction s as [|c s IH]; [done|]. by rewrite append_cons, IH. Qed.

Lemma all_digits_app s1 s2 :
  all_digits (s1 +:+ s2) = all_digits s1 && all_digits s2.
Proof.
  induction s1 as [|c s1 IH]; [done|].
  rewrite append_cons. simpl. by rewrite IH, andb_assoc.
Qed.

Lemma parseInt_from_app acc s1 s2 :
  parseInt_from acc (s1 +:+ s2) = parseInt_from (parseInt_from acc s1) s2.
Proof.
  revert acc. induction s1 as [|c s1 IH]; intros acc; [done|].
  rewrite append_cons. simpl. apply IH.
Qed.

Lemma pretty_N_char_digit d :
  (d < 10)%N →
  is_digit (pretty_N_char d) = true ∧ digit_value (pretty_N_char d) = Z.of_N d.
Proof.
  intros H.
  assert (d = 0 ∨ d = 1 ∨ d = 2 ∨ d = 3 ∨ d = 4 ∨ d = 5 ∨ d = 6 ∨ d = 7
          ∨ d = 8 ∨ d = 9)%N as Hd by lia.
  repeat (destruct Hd as [->|Hd]; [by vm_compute|]). subst. by vm_compute.
Qed.

(** The numeral stdpp prints for [x] in front of [s] is a string of
    digits that [parseInt] reads back as [x]. *)
Lemma pretty_N_go_decimal x s :
  ∃ p, pretty_N_go x s = p +:+ s ∧ all_digits p = true
       ∧ ((0 < x)%N → p ≠ "") ∧ decimalValue p = Z.of_N x.
Proof.
  revert s. induction (N.lt_wf_0 x) as [x _ IH]; intros s.
  destruct (decide (x = 0)%N) as [->|Hx].
  { exists "". rewrite pretty_N_go_0. split_and!; try done. }
  rewrite pretty_N_go_step by lia.
  destruct (IH (x `div` 10)%N) with (s := String (pretty_N_char (x `mod` 10)%N) s)
    as (p & -> & Hd & _ & Hp).
  { apply N.div_lt; lia. }
  destruct (pretty_N_char_digit (x `mod` 10)%N) as [Hc Hv].
  { apply N.mod_lt. lia. }
  exists (p +:+ String (pretty_N_char (x `mod` 10)%N) "").
  split_and!.
  - by rewrite append_assoc.
  - rewrite all_digits_app, Hd. simpl. by rewrite Hc.
  - intros _. by destruct p.
  - unfold decimalValue in *. rewrite parseInt_from_app, Hp. simpl.
    rewrite Hv. rewrite (N.div_mod x 10) at 3 by lia. lia.
Qed.

Lemma pretty_N_decimal (n : N) :
  all_digits (pretty n) = true ∧ pretty n ≠ ""
  ∧ decimalValue (pretty n) = Z.of_N n.
Proof.
  unfold pretty, pretty_N. destruct (decide (n = 0)%N) as [->|Hn]; [done|].
  destruct (pretty_N_go_decimal n "") as (p & -> & Hd & Hne & Hp).
  rewrite append_nil_r.
  split_and!; [done | apply Hne; lia | done].
Qed.

(** ** Whole numbers as doubles, numerals with leading zeros *)

Lemma roundToDouble_exact (z : Z) :
  (Z.abs z ≤ 9007199254740992)%Z → roundToDouble z = z.
Proof.
  intros H. unfold roundToDouble.
  destruct (Z.ltb_spec (Z.abs z) 9007199254740992) as [?|Hge]; [done|].
  assert (z = 9007199254740992 ∨ z = -9007199254740992)%Z as [-> | ->] by lia;
    by vm_compute.
Qed.

Lemma digit_char (c : ascii) :
  is_digit c = true →
  (0 ≤ digit_value c < 10)%Z ∧ pretty_N_char (Z.to_N (digit_value c)) = c.
Proof.
  intros H.
  destruct c as [[] [] [] [] [] [] [] []];
    try (by vm_compute in H); by vm_compute.
Qed.

Lemma parseInt_from_nonneg ds acc :
  (0 ≤ acc)%Z → all_digits ds = true → (acc ≤ parseInt_from acc ds)%Z.
Proof.
  revert acc. induction ds as [|c ds IH]; intros acc Hacc Hd; simpl; [lia|].
  simpl in Hd. apply andb_true_iff in Hd as [Hc Hd].
  destruct (digit_char c Hc) as [? _].
  etrans; [|apply IH; [lia|done]]. lia.
Qed.

Lemma pretty_N_go_app x s : pretty_N_go x s = pretty_N_go x "" +:+ s.
Proof.
  revert s. induction (N.lt_wf_0 x) as [x _ IH]; intros s.
  destruct (decide (x = 0)%N) as [->|Hx]; [by rewrite !pretty_N_go_0|].
  rewrite (pretty_N_go_step x s), (pretty_N_go_step x "") by lia.
  assert (x `div` 10 < x)%N as Hlt by (apply N.div_lt; lia).
  set (c := pretty_N_char (x `mod` 10)).
  rewrite (IH _ Hlt (String c s)), (IH _ Hlt (String c "")).
  by rewrite append_assoc.
Qed.

Lemma pretty_N_small (d : N) :
  (d < 10)%N → pretty d = String (pretty_N_char d) "".
Proof.
  intros H. unfold pretty, pretty_N.
  destruct (decide (d = 0)%N) as [->|Hd]; [done|].
  rewrite pretty_N_go_step by lia.
  rewrite N.div_small, N.mod_small, pretty_N_go_0 by done. done.
Qed.

(** One more digit behind the numeral of a positive number. *)
Lemma pretty_N_snoc (a d : N) :
  (0 < a)%N → (d < 10)%N →
  pretty (10 * a + d)%N = pretty a +:+ String (pretty_N_char d) "".
Proof.
  intros Ha Hd. unfold pretty, pretty_N.
  rewrite !decide_False by lia. rewrite pretty_N_go_step by lia.
  assert ((10 * a + d) `div` 10 = a)%N as ->
    by (symmetry; apply (N.div_unique _ 10 a d); lia).
  assert ((10 * a + d) `mod` 10 = d)%N as ->
    by (symmetry; apply (N.mod_unique _ 10 a d); lia).
  apply pretty_N_go_app.
Qed.

Lemma decimal_append ds (acc : Z) :
  all_digits ds = true → (0 < acc)%Z →
  pretty (Z.to_N (parseInt_from acc ds)) = pretty (Z.to_N acc) +:+ ds.
Proof.
  revert acc. induction ds as [|c ds IH]; intros acc Hd Hacc; simpl.
  { by rewrite append_nil_r. }
  simpl in Hd. apply andb_true_iff in Hd as [Hc Hd].
  destruct (digit_char c Hc) as [Hrange Hchar].
  rewrite IH by (done || lia).
  replace (Z.to_N (10 * acc + digit_value c))
    with (10 * Z.to_N acc + Z.to_N (digit_value c))%N by lia.
  rewrite pretty_N_snoc, Hchar by lia.
  by rewrite append_assoc.
Qed.

(** Every non-empty string of digits is some zeros followed by the
    numeral of the number it denotes. *)
Lemma digits_numeral ds :
  all_digits ds = true → ds ≠ "" →
  ∃ (k : nat) (n : N),
    ds = leadingZeros k (pretty n) ∧ decimalValue ds = Z.of_N n.
Proof.
  induction ds as [|c ds IH]; intros Hd Hne; [done|].
  simpl in Hd. apply andb_true_iff in Hd as [Hc Hd].
  destruct (digit_char c Hc) as [Hrange Hchar].
  destruct (decide (digit_value c = 0%Z)) as [Hz|Hnz].
  - rewrite Hz in Hchar. change (pretty_N_char (Z.to_N 0%Z)) with "0"%char in Hchar.
    subst c. destruct ds as [|c' ds'].
    + by exists 0%nat, 0%N.
    + destruct (IH Hd) as (k & n & Hk & Hv); [done|].
      exists (S k), n. split; [simpl; by rewrite <- Hk | exact Hv].
  - exists 0%nat, (Z.to_N (parseInt_from (digit_value c) ds)).
    assert (digit_value c ≤ parseInt_from (digit_value c) ds)%Z
      by (apply parseInt_from_nonneg; [lia|done]).
    split.
    2:{ unfold decimalValue.
        change (parseInt_from 0 (String c ds))
          with (parseInt_from (10 * 0 + digit_value c) ds).
        replace (10 * 0 + digit_value c)%Z with (digit_value c) by lia. lia. }
    simpl. rewrite decimal_append by (done || lia).
    rewrite pretty_N_small, Hchar by lia. done.
Qed.

Lemma numeral_digits (k : nat) (n : N) :
  all_digits (leadingZeros k (pretty n)) = true
  ∧ leadingZeros k (pretty n) ≠ ""
  ∧ decimalValue (leadingZeros k (pretty n)) = Z.of_N n.
Proof.
  induction k as [|k (IH1 & IH2 & IH3)]; [apply pretty_N_decimal|].
  simpl. split_and!; [done|done|]. unfold decimalValue in *. by simpl.
Qed.

(** * The claims *)

(** ** C1 *)

(** C1 (fails on the code).  The claim: starting a new countdown resets
    the fired set to empty.  [handleStart] never touches
    [playedCuesRef]: after a first run in which [gameover] fired, the
    restarted countdown begins with [gameover] still in the fired set,
    and counting the second run down to zero never plays it again. *)
Theorem fired_set_survives_restart :
  let finished := run first_run initial in
  let restarted := dispatch ClickStart finished in
  (∀ s, playedCuesRef (handleStart s) = playedCuesRef s)
  ∧ running finished = false
  ∧ running restarted = true
  ∧ timeLeft restarted = 60%Q
  ∧ elements (playedCuesRef restarted) = ["gameover"]
  ∧ cueScheduleRef restarted = [("gameover", 5%Q)]
  ∧ firedCues (newActions restarted
                 (run (replicate 60 (Tick 1%nat)) restarted)) = [].
Proof. split; [done|]. vm_compute. by split_and!. Qed.

(** ** C2 *)








(** ** C3 *)

(** C3.  In every state the component can reach and for every event:
    the fired set only grows; a cue's audio is played in the step
    exactly when the cue enters the fired set in it, so a cue already
    in the fired set is not fired again; a cue enters the fired set
    only in a step that leaves [timeLeft] equal to its trigger time;
    and over the whole session no cue is fired twice. *)
Theorem cue_fires_at_most_once (evs : list Event) (e : Event) :
  let s := run evs initial in
  let s' := dispatch e s in
  playedCuesRef s ⊆ playedCuesRef s'
  ∧ (∀ c, fires c s s' ↔ c ∈ playedCuesRef s' ∧ c ∉ playedCuesRef s)
  ∧ (∀ c, c ∈ playedCuesRef s → ¬ fires c s s')
  ∧ (∀ c, c ∈ playedCuesRef s' → c ∉ playedCuesRef s →
          ∃ T, schedule_get c (cueScheduleRef s') = Some T
               ∧ (timeLeft s' == T)%Q)
  ∧ NoDup (firedCues (audioLog s')).
Proof.
  intros s s'. pose proof (reachable_Inv evs) as HI. fold s in HI.
  destruct (dispatch_fires e s HI) as (new & Hl & _ & Hiff & Hmono & Htrig).
  fold s' in Hl, Hiff, Hmono, Htrig.
  unfold fires. rewrite (newActions_app _ _ _ Hl). split_and!; try done.
  - intros c Hc H. by apply Hiff in H as [_ ?].
  - apply (wf_log s'), inv_wf. unfold s'. by apply dispatch_Inv.
Qed.

(** ** C4 *)

Lemma numeral_min_not_named ds :
  ds ≠ "" → all_digits ds = true →
  ds +:+ "min" ≠ "blackout" ∧ ds +:+ "min" ≠ "gameover".
Proof.
  intros Hne Hd. destruct ds as [|c ds]; [done|].
  simpl in Hd. apply andb_true_iff in Hd as [Hc _].
  rewrite append_cons. split; intros [= -> _]; by vm_compute in Hc.
Qed.

Lemma triggerAt_of_numeral (k : nat) (n : N) :
  (Z.of_N n * 60 ≤ 9007199254740992)%Z →
  triggerAt_of (leadingZeros k (pretty n) +:+ "min")
  = Some (inject_Z (Z.of_N n * 60)).
Proof.
  intros Hn. destruct (numeral_digits k n) as (Hd & Hne & Hv).
  destruct (numeral_min_not_named _ Hne Hd) as [H1 H2].
  unfold triggerAt_of. rewrite !decide_False by done.
  rewrite (proj2 (match_min_spec _ (leadingZeros k (pretty n)))) by done.
  unfold fmap, option_fmap, option_map, parseInt10. rewrite Hv.
  rewrite (roundToDouble_exact (Z.of_N n)) by lia.
  by rewrite roundToDouble_exact by lia.
Qed.

Lemma triggerAt_of_other c :
  c ≠ "blackout" → c ≠ "gameover" →
  (∀ (k : nat) (n : N), c ≠ leadingZeros k (pretty n) +:+ "min") →
  triggerAt_of c = None.
Proof.
  intros H1 H2 H3. unfold triggerAt_of. rewrite !decide_False by done.
  destruct (match_min c) as [ds|] eqn:E; [|done].
  apply match_min_spec in E as (-> & Hne & Hd).
  destruct (digits_numeral ds Hd Hne) as (k & n & -> & _). by destruct (H3 k n).
Qed.

Example buildSchedule_sample :
  buildSchedule
    ["007min"; "blackout"; "siren"; "min"; "5min"; "gameover"; "5 min";
     "blackout"; "-3min"; "2.5min"]
  = [("007min", 420%Q); ("blackout", 60%Q); ("5min", 300%Q); ("gameover", 5%Q)].
Proof. by vm_compute. Qed.

(** C4, counterexample.  A numeral above 2^53 is not a double:
    [parseInt] of 9007199254740993 is 9007199254740992, and the cue
    [9007199254740993min] is scheduled at 540431955284459520, which is
    not 9007199254740993 * 60. *)
Lemma huge_numeral_is_rounded :
  let c := pretty 9007199254740993%N +:+ "min" in
  c = "9007199254740993min"
  ∧ schedule_get c (buildSchedule [c]) = Some (inject_Z 540431955284459520)
  ∧ schedule_get c (buildSchedule [c])
    ≠ Some (inject_Z (9007199254740993 * 60)).
Proof. vm_compute. split_and!; [done|done|]. intros H. discriminate H. Qed.

(** C4, as amended.  The schedule built from a selection: a selected
    [blackout] is scheduled at 60, a selected [gameover] at 5, a
    selected id made of the decimal numeral of N, with or without
    zeros in front, followed by [min] at N * 60, as long as N * 60 is
    at most 2^53 (the range in which whole numbers are doubles); every
    id of another shape, selected or not, is absent.  The duration
    plays no part: [handleStart] stores this schedule whatever the
    total number of seconds, so [blackout] stays at 60 even when the
    countdown starts below 60. *)
Theorem schedule_builder_rules (selected : list string) :
  ("blackout" ∈ selected →
     schedule_get "blackout" (buildSchedule selected) = Some 60%Q)
  ∧ ("gameover" ∈ selected →
     schedule_get "gameover" (buildSchedule selected) = Some 5%Q)
  ∧ (∀ (k : nat) (n : N),
     (Z.of_N n * 60 ≤ 9007199254740992)%Z →
     leadingZeros k (pretty n) +:+ "min" ∈ selected →
     schedule_get (leadingZeros k (pretty n) +:+ "min") (buildSchedule selected)
     = Some (inject_Z (Z.of_N n * 60)))
  ∧ (∀ c, c ≠ "blackout" → c ≠ "gameover" →
     (∀ (k : nat) (n : N), c ≠ leadingZeros k (pretty n) +:+ "min") →
     schedule_get c (buildSchedule selected) = None)
  ∧ (∀ c, c ∉ selected → schedule_get c (buildSchedule selected) = None)
  ∧ (∀ s, selectedCues s = selected →
     cueScheduleRef (handleStart s) = buildSchedule selected
     ∧ timeLeft (handleStart s) = (duration s * 60)%Q
     ∧ ("blackout" ∈ selected → (duration s * 60 < 60)%Q →
        schedule_get "blackout" (cueScheduleRef (handleStart s)) = Some 60%Q)).
Proof.
  split_and!.
  - intros H. rewrite buildSchedule_get. by rewrite decide_True.
  - intros H. rewrite buildSchedule_get. by rewrite decide_True.
  - intros k n Hn H. rewrite buildSchedule_get, decide_True by done.
    by apply triggerAt_of_numeral.
  - intros c H1 H2 H3. rewrite buildSchedule_get.
    case_decide; [by apply triggerAt_of_other | done].
  - intros c H. rewrite buildSchedule_get. by rewrite decide_False.
  - intros s <-. split_and!; try done.
    intros H _. simpl. rewrite buildSchedule_get. by rewrite decide_True.
Qed.

Lemma schedule_builder_rules_witness :
  schedule_get "5min" (buildSchedule ["blackout"; "5min"]) = Some 300%Q
  ∧ schedule_get "blackout" (buildSchedule ["blackout"; "5min"]) = Some 60%Q.
Proof.
  destruct (schedule_builder_rules ["blackout"; "5min"]) as (Hb & _ & Hn & _).
  split.
  - apply (Hn 0%nat 5%N); [by vm_compute|].
    apply (bool_decide_unpack _). by vm_compute.
  - apply Hb. apply (bool_decide_unpack _). by vm_compute.
Defined.

(** ** C5 *)

Lemma dispatch_Tick_timeLeft h s :
  h ∈ timers s → timeLeft (dispatch (Tick h) s) = (timeLeft s - 1)%Q.
Proof. intros Hh. rewrite dispatch_Tick by done. by rewrite cueEffect_timeLeft. Qed.

(** Without a click on Start, the schedule stays and [timeLeft] does
    not grow; a cue whose trigger time is already above [timeLeft] is
    not fired. *)
Lemma step_below e s c T :
  Inv s → e ≠ ClickStart →
  schedule_get c (cueScheduleRef s) = Some T → (timeLeft s < T)%Q →
  cueScheduleRef (dispatch e s) = cueScheduleRef s
  ∧ (timeLeft (dispatch e s) <= timeLeft s)%Q
  ∧ ∃ l, audioLog (dispatch e s) = audioLog s ++ l ∧ PlayCue c ∉ l.
Proof.
  intros HI He Hget Hlt.
  destruct (dispatch_fires e s HI) as (new & Hl & _ & Hiff & _ & Htrig).
  destruct (dispatch_cases e s HI)
    as [(_ & Hs & Ht & _)
       |(s1 & a & Hd & _ & _ & _ & _ & _ & [[-> _]|(h & -> & Hh & _ & ->)])];
    [|done|].
  - rewrite Hs, Ht. split_and!; [done|lra|].
    exists new. split; [done|]. intros [H1 H2]%Hiff.
    destruct (Htrig c H1 H2) as (T' & HT' & Heq).
    rewrite Hs, Ht in *. simplify_eq. lra.
  - assert (cueScheduleRef (dispatch (Tick h) s) = cueScheduleRef s) as Hs.
    { rewrite Hd. by destruct (cueEffect_frame (intervalCallback s))
        as (_ & _ & _ & _ & _ & -> & _). }
    pose proof (dispatch_Tick_timeLeft h s Hh) as Ht.
    rewrite Hs, Ht. split_and!; [done|lra|].
    exists new. split; [done|]. intros [H1 H2]%Hiff.
    destruct (Htrig c H1 H2) as (T' & HT' & Heq).
    rewrite Hs, Ht in *. simplify_eq. lra.
Qed.

Lemma run_below later s c T :
  Inv s → ClickStart ∉ later →
  schedule_get c (cueScheduleRef s) = Some T → (timeLeft s < T)%Q →
  ∃ l, audioLog (run later s) = audioLog s ++ l ∧ PlayCue c ∉ l.
Proof.
  revert s. induction later as [|e later IH]; intros s HI Hno Hget Hlt.
  - exists []. simpl. rewrite app_nil_r. split; [done | apply not_elem_of_nil].
  - apply not_elem_of_cons in Hno as [He Hno].
    destruct (step_below e s c T HI) as (Hs & Ht & l1 & Hl1 & Hn1);
      [done..|].
    destruct (IH (dispatch e s)) as (l2 & Hl2 & Hn2);
      [by apply dispatch_Inv | done | by rewrite Hs | lra |].
    exists (l1 ++ l2). simpl. rewrite Hl2, Hl1, app_assoc. split; [done|].
    rewrite elem_of_app. by intros [?|?].
Qed.

(** C5.  In a reachable state, for a live tick and a cue scheduled at T:
    the tick lowers [timeLeft] by one; the cue fires in it exactly when
    the new [timeLeft] equals T and the cue is not yet in the fired
    set; it does not fire when the new value is T + 1 or T - 1; and once
    [timeLeft] is below T without the cue having fired, nothing that
    happens before the next click on Start fires it. *)
Theorem exact_match_firing (evs : list Event) (h : nat) (c : string) (T : Q) :
  let s := run evs initial in
  let s' := dispatch (Tick h) s in
  h ∈ timers s →
  schedule_get c (cueScheduleRef s) = Some T →
  timeLeft s' = (timeLeft s - 1)%Q
  ∧ (fires c s s' ↔ (timeLeft s' == T)%Q ∧ c ∉ playedCuesRef s)
  ∧ ((timeLeft s' == T + 1)%Q → ¬ fires c s s')
  ∧ ((timeLeft s' == T - 1)%Q → ¬ fires c s s')
  ∧ ((timeLeft s' < T)%Q → ∀ later, ClickStart ∉ later →
       c ∉ firedCues (newActions s (run later s'))).
Proof.
  intros s s' Hh Hget.
  pose proof (reachable_Inv evs) as HI. fold s in HI.
  pose proof (dispatch_Inv (Tick h) s HI) as HI'. fold s' in HI'.
  pose proof (dispatch_Tick_timeLeft h s Hh) as Ht. fold s' in Ht.
  destruct (dispatch_fires (Tick h) s HI) as (new & Hl & _ & Hiff & _ & Htrig).
  fold s' in Hl, Hiff, Htrig.
  assert (cueScheduleRef s' = cueScheduleRef s) as Hs.
  { unfold s'. rewrite dispatch_Tick by done.
    by destruct (cueEffect_frame (intervalCallback s))
      as (_ & _ & _ & _ & _ & -> & _). }
  assert (fires c s s' ↔ (timeLeft s' == T)%Q ∧ c ∉ playedCuesRef s) as Hfire.
  { unfold fires. rewrite (newActions_app _ _ _ Hl), Hiff. split.
    - intros [H1 H2]. split; [|done].
      destruct (Htrig c H1 H2) as (T' & HT' & Heq).
      rewrite Hs in HT'. by simplify_eq.
    - intros [Heq Hnp]. split; [|done].
      pose proof (tick_running h s HI Hh) as Hr.
      destruct (cueEffect_spec (intervalCallback s) Hr) as (? & _ & Hpl & _).
      unfold s'. rewrite dispatch_Tick by done.
      apply Hpl. right. exists T. split; [by apply schedule_get_elem|].
      simpl. by rewrite <- Ht. }
  split_and!; [done|done|..].
  - intros Heq [Heq' _]%Hfire. rewrite Heq in Heq'. lra.
  - intros Heq [Heq' _]%Hfire. rewrite Heq in Heq'. lra.
  - intros Hlt later Hno.
    destruct (run_below later s' c T HI' Hno) as (l & Hl' & Hn);
      [by rewrite Hs | done |].
    rewrite Hl, <- app_assoc in Hl'. rewrite (newActions_app _ _ _ Hl').
    rewrite elem_of_firedCues, elem_of_app. intros [H|H]; [|done].
    assert (fires c s s') as Hf.
    { unfold fires. by rewrite (newActions_app _ _ _ Hl). }
    apply Hfire in Hf as [Heq _]. lra.
Qed.

Lemma exact_match_firing_witness :
  let s := run (firstn 57 first_run) initial in
  let s' := dispatch (Tick 0%nat) s in
  0%nat ∈ timers s
  ∧ schedule_get "gameover" (cueScheduleRef s) = Some 5%Q
  ∧ timeLeft s = 6%Q
  ∧ fires "gameover" s s'.
Proof.
  intros s s'.
  assert (timers s = {[0%nat]}) as Ht by (vm_compute; reflexivity).
  assert (playedCuesRef s = ∅) as Hp by (vm_compute; reflexivity).
  assert (0%nat ∈ timers s) as Hh.
  { rewrite Ht. by apply elem_of_singleton. }
  assert (schedule_get "gameover" (cueScheduleRef s) = Some 5%Q) as Hget
    by (vm_compute; reflexivity).
  split_and!; [exact Hh | exact Hget | vm_compute; reflexivity |].
  destruct (exact_match_firing (firstn 57 first_run) 0%nat "gameover" 5%Q
              Hh Hget) as (_ & Hfire & _).
  apply Hfire. split; [vm_compute; reflexivity|].
  change ("gameover" ∉ playedCuesRef s). rewrite Hp.
  apply not_elem_of_empty.
Defined.

(** ** C6 *)

Lemma ticks_dead (ticks : list nat) s :
  timers s = ∅ → run (Tick <$> ticks) s = s.
Proof.
  intros Ht. induction ticks as [|h ticks IH]; csimpl; [done|].
  rewrite dispatch_disabled; [done|].
  simpl. apply bool_decide_eq_false. rewrite Ht. apply not_elem_of_empty.
Qed.

(** C6.  When an event of a running countdown leaves [timeLeft] at 0
    (the event is then a tick), the same step clears the interval and
    sets [running] to false; afterwards no interval id is live, so a
    tick, whatever its id and however many of them, changes nothing. *)
Theorem countdown_stops_at_zero (evs : list Event) (e : Event) :
  let s := run evs initial in
  let s' := dispatch e s in
  running s = true → (timeLeft s' == 0)%Q →
  (∃ h, e = Tick h ∧ h ∈ timers s)
  ∧ running s' = false
  ∧ timers s' = ∅
  ∧ (∀ h, enabled (Tick h) s' = false)
  ∧ (∀ ticks, run (Tick <$> ticks) s' = s').
Proof.
  intros s s' Hr Hz.
  pose proof (reachable_Inv evs) as HI. fold s in HI.
  pose proof (dispatch_Inv e s HI) as HI'. fold s' in HI'.
  assert (running s' = false) as Hr'.
  { destruct (running s') eqn:E; [|done]. by destruct (inv_nonzero s' HI'). }
  assert (timers s' = ∅) as Ht by (apply (wf_idle s'); [apply HI' | done]).
  split_and!; try done.
  - destruct (dispatch_cases e s HI)
      as [(_ & _ & Ht' & _)
         |(s1 & a & _ & _ & _ & _ & _ & _ & [[_ [? _]]|(h & ? & ? & _)])].
    + fold s' in Ht'. rewrite Ht' in Hz. by destruct (inv_nonzero s HI).
    + congruence.
    + by exists h.
  - intros h. simpl. apply bool_decide_eq_false. rewrite Ht.
    apply not_elem_of_empty.
  - intros ticks. by apply ticks_dead.
Qed.

Lemma countdown_stops_at_zero_witness :
  let s := run (firstn 62 first_run) initial in
  let s' := dispatch (Tick 0%nat) s in
  running s = true ∧ (timeLeft s' == 0)%Q
  ∧ running s' = false ∧ timers s' = ∅.
Proof.
  intros s s'.
  assert (running s = true) as Hr by (vm_compute; reflexivity).
  assert (timeLeft s' == 0)%Q as Hz by (vm_compute; reflexivity).
  destruct (countdown_stops_at_zero (firstn 62 first_run) (Tick 0%nat) Hr Hz)
    as (_ & Hr' & Ht & _).
  by split_and!.
Defined.

(** ** C7 *)


(** ** C8 *)

Lemma dispatch_trapMessages e s :
  trapMessages (dispatch e s) = trapMessages s ++ trapsOf [e].
Proof.
  assert (∀ s1, trapMessages (cueEffect s1) = trapMessages s1) as Hc.
  { intros s1. by destruct (cueEffect_frame s1) as (_ & _ & -> & _). }
  destruct (enabled e s) eqn:He.
  - destruct e as [|c|v|h|m]; simpl in He.
    + apply negb_true_iff in He. rewrite dispatch_ClickStart, Hc by done.
      simpl. by rewrite app_nil_r.
    + rewrite dispatch_ToggleCue by done. simpl. by rewrite app_nil_r.
    + apply negb_true_iff in He. rewrite dispatch_ChangeDuration by done.
      rewrite app_nil_r. destruct v as [|v]; simpl; [done|].
      by destruct (Qlt_le_dec 0 v).
    + apply bool_decide_eq_true in He. rewrite dispatch_Tick, Hc by done.
      simpl. by rewrite app_nil_r.
    + by rewrite dispatch_TrapTriggered.
  - rewrite dispatch_disabled by done.
    destruct e; try by rewrite app_nil_r. done.
Qed.

(** C8.  A trap event, in any state, appends its message to the end of
    [trapMessages] and plays the trap sound, and leaves [running] and
    [timeLeft] alone; over any sequence of events (starts, ticks, the
    end of a countdown, ...) [trapMessages] is what it was followed by
    the messages of the trap events, in order of arrival: nothing is
    ever removed. *)
Theorem trap_messages_append_only (s : App) (evs : list Event) (m : string) :
  enabled (TrapTriggered m) s = true
  ∧ trapMessages (dispatch (TrapTriggered m) s) = trapMessages s ++ [m]
  ∧ audioLog (dispatch (TrapTriggered m) s) = audioLog s ++ [PlayTrap]
  ∧ running (dispatch (TrapTriggered m) s) = running s
  ∧ timeLeft (dispatch (TrapTriggered m) s) = timeLeft s
  ∧ trapMessages (run evs s) = trapMessages s ++ trapsOf evs.
Proof.
  rewrite dispatch_TrapTriggered. split_and!; try done.
  revert s. induction evs as [|e evs IH]; intros s; simpl.
  - by rewrite app_nil_r.
  - rewrite IH, dispatch_trapMessages, <- app_assoc. f_equal.
    unfold trapsOf. simpl. by destruct e.
Qed.

(** ** C9 *)

(** The effect also runs on the render that follows [handleStart], with
    [timeLeft] still at the full number of seconds: a selected cue
    scheduled at exactly that value, and not yet in the fired set, fires
    at once. *)
Lemma start_fires_cue_at_total (evs : list Event) (c : string) (T : Q) :
  let s := run evs initial in
  let s' := dispatch ClickStart s in
  running s = false → c ∈ selectedCues s → triggerAt_of c = Some T →
  (T == duration s * 60)%Q → c ∉ playedCuesRef s →
  timeLeft s' = (duration s * 60)%Q ∧ fires c s s' ∧ c ∈ playedCuesRef s'.
Proof.
  intros s s' Hr Hsel HT Heq Hnp.
  pose proof (reachable_Inv evs) as HI. fold s in HI.
  destruct (dispatch_fires ClickStart s HI) as (new & Hl & _ & Hiff & _).
  fold s' in Hl, Hiff.
  assert (c ∈ playedCuesRef s') as Hin.
  { unfold s'. rewrite dispatch_ClickStart by done.
    destruct (cueEffect_spec (handleStart s) eq_refl) as (? & _ & Hpl & _).
    apply Hpl. right. exists T. split; [by apply buildSchedule_elem|].
    simpl. by rewrite Heq. }
  split_and!; [|by unfold fires; rewrite (newActions_app _ _ _ Hl), Hiff|done].
  unfold s'. rewrite dispatch_ClickStart by done. by rewrite cueEffect_timeLeft.
Qed.

Example forty_minutes_fire_at_start :
  let s := run [ToggleCue "40min"; ChangeDuration (Finite 40)] initial in
  let s' := dispatch ClickStart s in
  timeLeft s' = 2400%Q ∧ firedCues (newActions s s') = ["40min"].
Proof. by vm_compute. Qed.

(** C9 (fails on the code in a later run).  In the first run of a
    session with [blackout] selected and a duration of one minute the
    cue is scheduled at 60, the countdown starts at 60 and the cue
    fires at the start, before any tick.  Started again after that run
    has ended, the same selection and duration give the same schedule
    and the same starting value, but nothing fires at the start: the
    fired set still holds [blackout]. *)
Theorem initial_match_lost_on_restart :
  let setup := run [ToggleCue "blackout"; ChangeDuration (Finite 1)] initial in
  let started := dispatch ClickStart setup in
  let finished := run (replicate 60 (Tick 0%nat)) started in
  let restarted := dispatch ClickStart finished in
  (schedule_get "blackout" (cueScheduleRef started) = Some 60%Q
   ∧ timeLeft started = 60%Q
   ∧ firedCues (newActions setup started) = ["blackout"])
  ∧ running finished = false
  ∧ (schedule_get "blackout" (cueScheduleRef restarted) = Some 60%Q
     ∧ timeLeft restarted = 60%Q
     ∧ running restarted = true
     ∧ firedCues (newActions finished restarted) = []
     ∧ elements (playedCuesRef finished) = ["blackout"]).
Proof. vm_compute. by split_and!. Qed.

(** ** C10 *)

(** C10, counterexample.  Half a minute is greater than 0, so it is
    committed, and the countdown that follows starts at 30 seconds. *)
Lemma half_minute_duration_accepted :
  let s := run [ChangeDuration (Finite (1 # 2)); ClickStart] initial in
  duration s = (1 # 2)%Q ∧ running s = true
  ∧ (timeLeft s == 30)%Q ∧ ¬ (60 <= duration s * 60)%Q.
Proof.
  intros s. split_and!; [by vm_compute..|].
  replace (duration s) with (1 # 2)%Q by (by vm_compute). lra.
Qed.

(** C10, as amended.  The duration starts at 60 and is positive in every
    reachable state; an event changes it only when it is a duration
    change carrying a value greater than 0, which becomes the new
    duration.  So the total number of seconds [duration * 60], which
    [handleStart] stores in [timeLeft] and which divides in
    [progressPercent], is positive, never 0; it is at least 60 exactly
    when the duration is at least one minute. *)
Theorem duration_always_positive (evs : list Event) (e : Event) :
  let s := run evs initial in
  let s' := dispatch e s in
  duration initial = 60%Q
  ∧ (0 < duration s)%Q
  ∧ (0 < duration s * 60)%Q
  ∧ ¬ (duration s * 60 == 0)%Q
  ∧ timeLeft (handleStart s) = (duration s * 60)%Q
  ∧ (duration s' ≠ duration s →
       ∃ v, e = ChangeDuration (Finite v) ∧ (0 < v)%Q ∧ duration s' = v)
  ∧ ((60 <= duration s * 60)%Q ↔ (1 <= duration s)%Q).
Proof.
  intros s s'. pose proof (wf_duration s (inv_wf s (reachable_Inv evs))) as Hd.
  split_and!; [done|done|lra|lra|done| |split; lra].
  assert (∀ s1, duration (cueEffect s1) = duration s1) as Hc.
  { intros s1. by destruct (cueEffect_frame s1) as (-> & _). }
  unfold s'. destruct (enabled e s) eqn:He;
    [|by rewrite dispatch_disabled].
  destruct e as [|c|v|h|m]; simpl in He.
  - apply negb_true_iff in He. by rewrite dispatch_ClickStart, Hc.
  - by rewrite dispatch_ToggleCue.
  - apply negb_true_iff in He. rewrite dispatch_ChangeDuration by done.
    destruct v as [|v]; simpl; [done|].
    destruct (Qlt_le_dec 0 v); [|done]. intros _. by exists v.
  - apply bool_decide_eq_true in He. by rewrite dispatch_Tick, Hc.
  - by rewrite dispatch_TrapTriggered.
Qed.

(** * Further properties of the component *)

(** ** [formatTime] *)

Lemma length_append (s1 s2 : string) :
  String.length (s1 +:+ s2) = (String.length s1 + String.length s2)%nat.
Proof.
  induction s1 as [|c s1 IH]; [done|]. rewrite append_cons. simpl. by rewrite IH.
Qed.

Lemma pretty_Z_nonneg (z : Z) : (0 ≤ z)%Z → pretty z = pretty (Z.to_N z).
Proof. intros H. destruct z as [|p|p]; [done|done|lia]. Qed.

Lemma pretty_N_go_length x s :
  (String.length s ≤ String.length (pretty_N_go x s))%nat.
Proof.
  destruct (pretty_N_go_decimal x s) as (p & -> & _). rewrite length_append. lia.
Qed.

(** One digit below ten, two below a hundred, more from there on. *)
Lemma pretty_N_length (n : N) :
  ((n < 10)%N → String.length (pretty n) = 1%nat)
  ∧ ((10 ≤ n < 100)%N → String.length (pretty n) = 2%nat)
  ∧ ((100 ≤ n)%N → (3 ≤ String.length (pretty n))%nat).
Proof.
  unfold pretty, pretty_N. destruct (decide (n = 0)%N) as [->|Hn].
  { split_and!; [done|lia|lia]. }
  rewrite pretty_N_go_step by lia. split_and!.
  - intros H. by rewrite N.div_small, pretty_N_go_0 by done.
  - intros H. rewrite pretty_N_go_step by (apply N.div_str_pos; lia).
    rewrite (N.div_small (n `div` 10)), pretty_N_go_0; [done|].
    apply N.Div0.div_lt_upper_bound. lia.
  - intros H. rewrite pretty_N_go_step by (apply N.div_str_pos; lia).
    rewrite pretty_N_go_step.
    + etrans; [|apply pretty_N_go_length]. simpl. lia.
    + apply N.div_str_pos. split; [lia|].
      apply N.div_le_lower_bound; lia.
Qed.

Lemma padStart_long n fill s : (n ≤ String.length s)%nat → padStart n fill s = s.
Proof. intros H. unfold padStart. by replace (n - String.length s)%nat with 0%nat by lia. Qed.

Lemma padStart_2_short fill s :
  String.length s = 1%nat → padStart 2 fill s = String fill s.
Proof. intros H. unfold padStart. by rewrite H. Qed.

(** Padding with zeros keeps a numeral a numeral, with the same value. *)
Lemma padStart_zero_digits n ds :
  all_digits (padStart n "0" ds) = all_digits ds
  ∧ decimalValue (padStart n "0" ds) = decimalValue ds.
Proof.
  unfold padStart. induction (n - String.length ds)%nat as [|k [IH1 IH2]]; [done|].
  simpl. split; [done|]. unfold decimalValue in *. by simpl.
Qed.

Lemma padStart_length n fill s :
  String.length (padStart n fill s) = (n `max` String.length s)%nat.
Proof.
  unfold padStart.
  assert (∀ k, String.length (Nat.iter k (String fill) s)
               = (k + String.length s)%nat) as ->.
  { induction k as [|k IH]; [done|]. simpl. by rewrite IH. }
  lia.
Qed.

Lemma formatTime_parts (n : Z) :
  (0 ≤ n)%Z →
  ∃ mm ss,
    formatTime n = mm +:+ ":" +:+ ss
    ∧ span_digits (formatTime n) = (mm, ":" +:+ ss)
    ∧ all_digits ss = true
    ∧ (2 ≤ String.length mm)%nat ∧ String.length ss = 2%nat
    ∧ decimalValue mm = (n `div` 60)%Z
    ∧ decimalValue ss = (n `mod` 60)%Z.
Proof.
  intros Hn. unfold formatTime. cbv zeta.
  assert (0 ≤ n `div` 60)%Z as Hq by (apply Z.div_pos; lia).
  assert (Z.rem n 60 = n `mod` 60)%Z as Hrem by (apply Z.rem_mod_nonneg; lia).
  assert (0 ≤ n `mod` 60 < 60)%Z as Hr by (apply Z.mod_pos_bound; lia).
  rewrite Hrem, !pretty_Z_nonneg by lia.
  set (m := Z.to_N (n `div` 60)). set (r := Z.to_N (n `mod` 60)).
  destruct (pretty_N_decimal m) as (Hdm & _ & Hvm).
  destruct (pretty_N_decimal r) as (Hdr & _ & Hvr).
  destruct (padStart_zero_digits 2 (pretty m)) as [Hpm Hpvm].
  destruct (padStart_zero_digits 2 (pretty r)) as [Hpr Hpvr].
  exists (padStart 2 "0" (pretty m)), (padStart 2 "0" (pretty r)).
  split_and!; try done.
  - apply span_digits_app; [by rewrite Hpm | done].
  - by rewrite Hpr.
  - rewrite padStart_length. lia.
  - rewrite padStart_length.
    destruct (pretty_N_length r) as (H1 & H2 & _).
    destruct (decide (r < 10)%N); [rewrite H1 by done | rewrite H2 by lia]; lia.
  - rewrite Hpvm, Hvm. unfold m. by rewrite Z2N.id.
  - rewrite Hpvr, Hvr. unfold r. rewrite Z2N.id; lia.
Qed.

(** The display of a whole number of seconds from 0 to below 2^53 (the
    whole numbers a JavaScript number counts one by one) reads back:
    digits, a colon, two digits; the digits before the colon, read by
    [parseInt], are the minutes, the two after it the seconds below
    sixty. *)
Theorem formatTime_reads_back (n : Z) :
  (0 ≤ n < 9007199254740992)%Z →
  ∃ mm ss,
    formatTime n = mm +:+ ":" +:+ ss
    ∧ span_digits (formatTime n) = (mm, ":" +:+ ss)
    ∧ all_digits ss = true
    ∧ (2 ≤ String.length mm)%nat ∧ String.length ss = 2%nat
    ∧ (0 ≤ parseInt10 ss < 60)%Z
    ∧ (parseInt10 mm * 60 + parseInt10 ss = n)%Z.
Proof.
  intros [Hn Hlt].
  destruct (formatTime_parts n Hn) as (mm & ss & H1 & H2 & H3 & H4 & H5 & Hm & Hs).
  exists mm, ss. unfold parseInt10. rewrite Hm, Hs.
  pose proof (Z.mod_pos_bound n 60). pose proof (Z.div_mod n 60).
  rewrite !roundToDouble_exact by lia.
  split_and!; try done; lia.
Qed.

Lemma formatTime_reads_back_witness :
  ∃ mm ss, formatTime 3599 = mm +:+ ":" +:+ ss
           ∧ (parseInt10 mm * 60 + parseInt10 ss = 3599)%Z.
Proof.
  destruct (formatTime_reads_back 3599) as (mm & ss & H1 & _ & _ & _ & _ & _ & H2);
    [lia|].
  by exists mm, ss.
Defined.

(** Two non-negative times are displayed alike only when equal. *)
Theorem formatTime_injective (a b : Z) :
  (0 ≤ a)%Z → (0 ≤ b)%Z → formatTime a = formatTime b → a = b.
Proof.
  intros Ha Hb Heq.
  destruct (formatTime_parts a Ha) as (ma & sa & _ & Hsa & _ & _ & _ & Hma & Hra).
  destruct (formatTime_parts b Hb) as (mb & sb & _ & Hsb & _ & _ & _ & Hmb & Hrb).
  rewrite Heq, Hsb in Hsa. injection Hsa as -> Hs.
  change (sb = sa) in Hs. subst sb.
  rewrite (Z.div_mod a 60), (Z.div_mod b 60) by lia. congruence.
Qed.

Lemma formatTime_injective_witness :
  formatTime (59 * 60 + 59) = formatTime 3599 ∧ (59 * 60 + 59 = 3599)%Z.
Proof.
  split; [reflexivity|].
  apply (formatTime_injective (59 * 60 + 59) 3599); [lia | lia | reflexivity].
Defined.

(** The display is five characters wide up to 99:59 and wider from
    100 minutes on: [padStart] pads, it never cuts. *)
Theorem formatTime_width (n : Z) :
  (0 ≤ n)%Z →
  (n < 6000 → String.length (formatTime n) = 5%nat)%Z
  ∧ (6000 ≤ n → (6 ≤ String.length (formatTime n))%nat)%Z.
Proof.
  intros Hn. unfold formatTime. cbv zeta.
  assert (0 ≤ n `div` 60)%Z as Hq by (apply Z.div_pos; lia).
  assert (Z.rem n 60 = n `mod` 60)%Z as Hrem by (apply Z.rem_mod_nonneg; lia).
  assert (0 ≤ n `mod` 60 < 60)%Z as Hr by (apply Z.mod_pos_bound; lia).
  rewrite Hrem, !pretty_Z_nonneg by lia.
  set (m := Z.to_N (n `div` 60)). set (r := Z.to_N (n `mod` 60)).
  rewrite !length_append, !padStart_length. simpl.
  assert (String.length (pretty r) ≤ 2)%nat as Hlr.
  { destruct (pretty_N_length r) as (H1 & H2 & _).
    destruct (decide (r < 10)%N); [rewrite H1 by done | rewrite H2 by lia]; lia. }
  destruct (pretty_N_length m) as (H1 & H2 & H3).
  split; intros H.
  - assert (n `div` 60 < 100)%Z by (apply Z.div_lt_upper_bound; lia).
    assert (String.length (pretty m) ≤ 2)%nat.
    { destruct (decide (m < 10)%N); [rewrite H1 by done | rewrite H2 by lia]; lia. }
    lia.
  - assert (100 ≤ n `div` 60)%Z by (apply Z.div_le_lower_bound; lia).
    assert (3 ≤ String.length (pretty m))%nat by (apply H3; lia). lia.
Qed.

Lemma formatTime_width_witness :
  String.length (formatTime 3599) = 5%nat
  ∧ (6 ≤ String.length (formatTime 6000))%nat.
Proof.
  split.
  - apply (formatTime_width 3599); lia.
  - apply (formatTime_width 6000); lia.
Defined.

(** ** [handleToggleCue] *)

Lemma filter_ne_notin (c : string) (l : list string) :
  c ∉ l → filter (λ i, i ≠ c) l = l.
Proof.
  induction l as [|x l IH]; [done|].
  intros [Hx Hl]%not_elem_of_cons.
  rewrite filter_cons_True by done. by rewrite IH.
Qed.

Lemma filter_ne_snoc (c : string) (l : list string) :
  filter (λ i, i ≠ c) (l ++ [c]) = filter (λ i, i ≠ c) l.
Proof.
  rewrite filter_app, (filter_cons_False _ c) by (by intros ?).
  by rewrite filter_nil, app_nil_r.
Qed.

Lemma filter_ne_Permutation (c : string) (l : list string) :
  NoDup l → c ∈ l → l ≡ₚ filter (λ i, i ≠ c) l ++ [c].
Proof.
  induction l as [|x l IH]; [by intros _ ?%elem_of_nil|].
  intros [Hx Hnd]%NoDup_cons Hin.
  destruct (decide (x = c)) as [->|Hne].
  - rewrite filter_cons_False by (by intros ?).
    rewrite filter_ne_notin by done. apply Permutation_cons_append.
  - rewrite filter_cons_True by done.
    apply elem_of_cons in Hin as [?|Hin]; [congruence|].
    simpl. by rewrite <- IH.
Qed.

(** Toggling a cue flips whether that cue is selected and nothing else:
    the other cues stay selected or not as they were, in the order
    they had, a selection without repetitions stays so, and every
    other part of the state (duration, time left, running flag, trap
    messages, interval, main track, schedule, fired set, audio cache,
    audio log) is as before; the render that follows runs no effect. *)
Theorem toggle_flips_one_cue (c : string) (s : App) :
  let sel := selectedCues s in
  let s' := handleToggleCue c s in
  let sel' := selectedCues s' in
  (c ∈ sel' ↔ c ∉ sel)
  ∧ (∀ x, x ≠ c → (x ∈ sel' ↔ x ∈ sel))
  ∧ filter (λ i, i ≠ c) sel' = filter (λ i, i ≠ c) sel
  ∧ (NoDup sel → NoDup sel')
  ∧ timeLeft s' = timeLeft s
  ∧ running s' = running s
  ∧ cueScheduleRef s' = cueScheduleRef s
  ∧ duration s' = duration s
  ∧ trapMessages s' = trapMessages s
  ∧ intervalRef s' = intervalRef s
  ∧ mainAudioRef s' = mainAudioRef s
  ∧ playedCuesRef s' = playedCuesRef s
  ∧ cueAudioRefs s' = cueAudioRefs s
  ∧ timers s' = timers s
  ∧ nextTimer s' = nextTimer s
  ∧ audioLog s' = audioLog s
  ∧ (enabled (ToggleCue c) s = true → dispatch (ToggleCue c) s = s').
Proof.
  intros sel s' sel'. unfold sel', s'.
  assert (enabled (ToggleCue c) s = true →
          dispatch (ToggleCue c) s = handleToggleCue c s) as Hd
    by apply dispatch_ToggleCue.
  revert Hd. generalize (dispatch (ToggleCue c) s). intros d Hd.
  simpl. fold sel.
  case_bool_decide as Hin; split_and!; try done.
  - rewrite list_elem_of_filter. split; [by intros [? _] | done].
  - intros x Hx. rewrite list_elem_of_filter. split; [by intros [_ ?] | done].
  - rewrite list_filter_filter. apply list_filter_iff. intros x. tauto.
  - apply NoDup_filter.
  - rewrite elem_of_app, list_elem_of_singleton. split; [done | by right].
  - intros x Hx. rewrite elem_of_app, list_elem_of_singleton.
    split; [by intros [?|?] | by left].
  - apply filter_ne_snoc.
  - intros Hnd. apply NoDup_app. split_and!; [done| |apply NoDup_singleton].
    by intros x Hx ->%list_elem_of_singleton.
Qed.

(** Toggling the same cue twice gives the selection back: as it was
    when the cue was not selected, and with the cue moved to the end
    when it was. *)
Theorem toggle_twice (c : string) (s : App) :
  let sel := selectedCues s in
  let sel'' := selectedCues (handleToggleCue c (handleToggleCue c s)) in
  (c ∉ sel → sel'' = sel)
  ∧ (c ∈ sel → sel'' = filter (λ i, i ≠ c) sel ++ [c])
  ∧ (NoDup sel → sel'' ≡ₚ sel).
Proof.
  intros sel sel''.
  assert (c ∉ sel → sel'' = sel) as H1.
  { intros Hnin. unfold sel''. simpl. fold sel.
    rewrite (bool_decide_eq_false_2 (c ∈ sel)) by done.
    rewrite bool_decide_eq_true_2
      by (apply elem_of_app; right; by apply list_elem_of_singleton).
    by rewrite filter_ne_snoc, filter_ne_notin. }
  assert (c ∈ sel → sel'' = filter (λ i, i ≠ c) sel ++ [c]) as H2.
  { intros Hin. unfold sel''. simpl. fold sel.
    rewrite (bool_decide_eq_true_2 (c ∈ sel)) by done.
    rewrite bool_decide_eq_false_2; [done|].
    rewrite list_elem_of_filter. by intros [? _]. }
  split_and!; [done|done|]. intros Hnd.
  destruct (decide (c ∈ sel)) as [Hin|Hnin].
  - rewrite H2 by done. symmetry. by apply filter_ne_Permutation.
  - by rewrite H1.
Qed.

(** ** What an event leaves alone *)

(** The effect writes [running], the played set, the live intervals and
    the audio log only: every other cell is as the handler left it. *)
Lemma dispatch_frame e s :
  let s1 := if enabled e s then handler e s else s in
  duration (dispatch e s) = duration s1
  ∧ selectedCues (dispatch e s) = selectedCues s1
  ∧ trapMessages (dispatch e s) = trapMessages s1
  ∧ intervalRef (dispatch e s) = intervalRef s1
  ∧ mainAudioRef (dispatch e s) = mainAudioRef s1
  ∧ cueScheduleRef (dispatch e s) = cueScheduleRef s1
  ∧ cueAudioRefs (dispatch e s) = cueAudioRefs s1
  ∧ nextTimer (dispatch e s) = nextTimer s1.
Proof.
  unfold dispatch. destruct (enabled e s); [|done]. cbv zeta.
  rewrite rerender_eq. destruct (deps_changed s (handler e s)); [|done].
  apply cueEffect_frame.
Qed.

Lemma dispatch_selectedCues e s :
  selectedCues (dispatch e s) =
  match e with
  | ToggleCue c =>
      if enabled e s then selectedCues (handleToggleCue c s) else selectedCues s
  | _ => selectedCues s
  end.
Proof.
  destruct (dispatch_frame e s) as (_ & -> & _).
  destruct e as [|c|v|h|m]; cbn [handler]; destruct (enabled _ s); try done.
  by destruct (handleDurationChange_frame v s) as (-> & _).
Qed.

Lemma dispatch_cueScheduleRef e s :
  cueScheduleRef (dispatch e s) =
  match e with
  | ClickStart =>
      if running s then cueScheduleRef s else buildSchedule (selectedCues s)
  | _ => cueScheduleRef s
  end.
Proof.
  destruct (dispatch_frame e s) as (_ & _ & _ & _ & _ & -> & _).
  destruct e as [|c|v|h|m]; cbn [handler enabled].
  - by destruct (running s).
  - by destruct (_ && _).
  - destruct (negb (running s)); [|done].
    by destruct (handleDurationChange_frame v s) as (_ & -> & _).
  - by destruct (bool_decide _).
  - done.
Qed.

(** The schedule is replaced by a click on Start and by nothing else:
    not by ticks, not by the end of the countdown, not by changes to
    the selection. *)
Theorem schedule_kept_until_next_start (evs : list Event) (s : App) :
  ClickStart ∉ evs → cueScheduleRef (run evs s) = cueScheduleRef s.
Proof.
  revert s. induction evs as [|e evs IH]; intros s Hno; [done|].
  apply not_elem_of_cons in Hno as [He Hno]. simpl.
  rewrite IH, dispatch_cueScheduleRef by done. by destruct e.
Qed.

Lemma schedule_kept_until_next_start_witness :
  let s := run (firstn 3 first_run) initial in
  cueScheduleRef (run (skipn 3 first_run ++ [ToggleCue "gameover"]) s)
  = cueScheduleRef s.
Proof.
  intros s. apply (schedule_kept_until_next_start _ s).
  change (skipn 3 first_run) with (replicate 60 (Tick 0%nat)).
  intros [[H _]%elem_of_replicate|H%list_elem_of_singleton]%elem_of_app;
    discriminate.
Defined.

(** ** The selection and the schedule built from it *)

Lemma schedule_set_fresh c v sch :
  c ∉ (fst <$> sch) → schedule_set c v sch = sch ++ [(c, v)].
Proof.
  induction sch as [|[k w] rest IH]; csimpl; [done|].
  intros [Hk Hrest]%not_elem_of_cons.
  rewrite decide_False by done. by rewrite IH.
Qed.

Lemma fold_schedule_fresh sel acc :
  NoDup sel → (∀ c, c ∈ sel → c ∉ (fst <$> acc)) →
  fold_left schedule_cue sel acc
  = acc ++ omap (λ c, pair c <$> triggerAt_of c) sel.
Proof.
  revert acc. induction sel as [|x sel IH]; intros acc Hnd Hfresh; simpl.
  { by rewrite app_nil_r. }
  apply NoDup_cons in Hnd as [Hx Hnd].
  rewrite schedule_cue_eq.
  destruct (triggerAt_of x) as [v|] eqn:Hv; simpl.
  - rewrite schedule_set_fresh by (apply Hfresh; left).
    rewrite IH, <- app_assoc; [done|done|].
    intros c Hc. rewrite fmap_app, elem_of_app. simpl.
    rewrite list_elem_of_singleton. intros [?| ->]; [|done].
    by apply (Hfresh c); [right|].
  - apply IH; [done|]. intros c Hc. apply Hfresh. by right.
Qed.

(** For a selection without repetitions the schedule lists the cues
    that have a trigger time, each with its time, in the order in
    which they were selected (the order in which the matcher visits
    them). *)
Theorem buildSchedule_in_selection_order (selected : list string) :
  NoDup selected →
  buildSchedule selected = omap (λ c, pair c <$> triggerAt_of c) selected.
Proof.
  intros Hnd. unfold buildSchedule.
  rewrite fold_schedule_fresh; [done|done|].
  intros c _ H. by apply elem_of_nil in H.
Qed.

Lemma buildSchedule_in_selection_order_witness :
  NoDup ["5min"; "siren"; "blackout"]
  ∧ buildSchedule ["5min"; "siren"; "blackout"]
    = [("5min", 300%Q); ("blackout", 60%Q)].
Proof.
  assert (NoDup ["5min"; "siren"; "blackout"]) as Hnd
    by (apply (bool_decide_unpack _); by vm_compute).
  split; [done|].
  rewrite (buildSchedule_in_selection_order _ Hnd). reflexivity.
Defined.

(** ** Invariants of the selection, the schedule and the audio *)

Lemma handleToggleCue_elem c s x :
  x ∈ selectedCues (handleToggleCue c s) → x = c ∨ x ∈ selectedCues s.
Proof.
  simpl. case_bool_decide.
  - intros [_ ?]%list_elem_of_filter. by right.
  - intros [?|?%list_elem_of_singleton]%elem_of_app; [by right | by left].
Qed.

Lemma handleToggleCue_NoDup c s :
  NoDup (selectedCues s) → NoDup (selectedCues (handleToggleCue c s)).
Proof.
  intros Hnd. simpl. case_bool_decide; [by apply NoDup_filter|].
  apply NoDup_app. split_and!; [done| |apply NoDup_singleton].
  by intros x Hx ->%list_elem_of_singleton.
Qed.

Lemma reachable_selection evs :
  let s := run evs initial in
  NoDup (selectedCues s)
  ∧ (∀ c, c ∈ selectedCues s → c ∈ map id CUE_OPTIONS)
  ∧ (running s = true → cueScheduleRef s = buildSchedule (selectedCues s)).
Proof.
  induction evs as [|e evs IH] using rev_ind.
  { split_and!; [apply NoDup_nil_2 | by intros c ?%elem_of_nil | done]. }
  rewrite run_snoc. cbv zeta in *. destruct IH as (Hnd & Hcat & Hsch).
  set (s := run evs initial) in *.
  assert (∀ s1, selectedCues (cueEffect s1) = selectedCues s1
                ∧ cueScheduleRef (cueEffect s1) = cueScheduleRef s1) as Hc.
  { intros s1. by destruct (cueEffect_frame s1) as (_ & -> & _ & _ & _ & -> & _). }
  by_event e s He.
  - destruct (Hc (handleStart s)) as [-> ->]. by split_and!.
  - apply andb_true_iff in He as [Hr Hin].
    apply negb_true_iff in Hr. apply bool_decide_eq_true in Hin.
    split_and!; [by apply handleToggleCue_NoDup| |simpl; congruence].
    intros x [->|?]%handleToggleCue_elem; [done | by apply Hcat].
  - destruct (handleDurationChange_frame v s) as (-> & -> & _ & -> & _).
    by split_and!.
  - destruct (Hc (intervalCallback s)) as [-> ->]. split_and!; [done..|].
    rewrite cueEffect_running. simpl. intros [Hr _]%andb_true_iff. by apply Hsch.
  - by split_and!.
  - by split_and!.
Qed.

Lemma catalogue_triggers c :
  c ∈ map id CUE_OPTIONS →
  ∃ T, triggerAt_of c = Some T
       ∧ T ∈ [2400%Q; 1800%Q; 600%Q; 300%Q; 60%Q; 5%Q].
Proof.
  intros H. simpl in H.
  repeat (apply elem_of_cons in H as [->|H];
          [eexists; split; [by vm_compute | set_solver]|]).
  by apply elem_of_nil in H.
Qed.

Lemma omap_trigger_keys (sel : list string) :
  (∀ c, c ∈ sel → is_Some (triggerAt_of c)) →
  fst <$> omap (λ c, pair c <$> triggerAt_of c) sel = sel.
Proof.
  induction sel as [|x sel IH]; intros H; [done|].
  destruct (H x) as [T HT]; [left|]. simpl. rewrite HT. csimpl.
  f_equal. apply IH. intros c Hc. apply H. by right.
Qed.

(** In every reachable state the selection has no repetitions, holds at
    most the six catalogue ids, and cannot be changed while the
    countdown runs. *)
Theorem selection_well_formed (evs : list Event) (e : Event) :
  let s := run evs initial in
  NoDup (selectedCues s)
  ∧ (∀ c, c ∈ selectedCues s → c ∈ map id CUE_OPTIONS)
  ∧ (length (selectedCues s) ≤ 6)%nat
  ∧ (running s = true → selectedCues (dispatch e s) = selectedCues s).
Proof.
  intros s. destruct (reachable_selection evs) as (Hnd & Hcat & _). fold s in Hnd, Hcat.
  split_and!; [done|done| |].
  - change 6%nat with (length (map id CUE_OPTIONS)).
    by apply submseteq_length, NoDup_submseteq.
  - intros Hr. rewrite dispatch_selectedCues. destruct e; try done.
    simpl. by rewrite Hr.
Qed.

(** While the countdown runs, the schedule is the one built from the
    current selection, and it holds every selected cue, in the order
    of selection, at one of the six catalogue times: nothing a user
    can select is dropped. *)
Theorem running_schedule_covers_selection (evs : list Event) :
  let s := run evs initial in
  running s = true →
  cueScheduleRef s = buildSchedule (selectedCues s)
  ∧ fst <$> cueScheduleRef s = selectedCues s
  ∧ (∀ c T, (c, T) ∈ cueScheduleRef s →
            T ∈ [2400%Q; 1800%Q; 600%Q; 300%Q; 60%Q; 5%Q]).
Proof.
  intros s Hr. destruct (reachable_selection evs) as (Hnd & Hcat & Hsch).
  fold s in Hnd, Hcat, Hsch. rewrite (Hsch Hr). split_and!; [done| |].
  - unfold buildSchedule. rewrite fold_schedule_fresh; [|done|].
    + apply omap_trigger_keys. intros c Hc.
      destruct (catalogue_triggers c (Hcat c Hc)) as (T & -> & _). by exists T.
    + intros c _ H. by apply elem_of_nil in H.
  - intros c T [Hin HT]%buildSchedule_elem.
    destruct (catalogue_triggers c (Hcat c Hin)) as (T' & HT' & ?). congruence.
Qed.

Lemma running_schedule_covers_selection_witness :
  let s := run [ToggleCue "5min"; ToggleCue "blackout"; ClickStart] initial in
  running s = true ∧ fst <$> cueScheduleRef s = selectedCues s.
Proof.
  intros s. assert (running s = true) as Hr by (vm_compute; reflexivity).
  split; [done|].
  by destruct (running_schedule_covers_selection
                 [ToggleCue "5min"; ToggleCue "blackout"; ClickStart] Hr)
    as (_ & ? & _).
Defined.

(** At most one interval is live at any time: exactly the one held in
    [intervalRef] while the countdown runs, none while it does not.  A
    countdown is never driven by two clocks. *)
Theorem one_interval_at_most (evs : list Event) :
  let s := run evs initial in
  (running s = false → timers s = ∅)
  ∧ (running s = true → ∃ h, intervalRef s = Some h ∧ timers s = {[h]})
  ∧ (size (timers s) ≤ 1)%nat
  ∧ (∀ h, enabled (Tick h) s = true → running s = true ∧ intervalRef s = Some h).
Proof.
  intros s. pose proof (inv_wf s (reachable_Inv evs)) as [_ Hidle Hrun _ _ _ _].
  split_and!; [done|done| |].
  - destruct (running s); [destruct Hrun as (h & _ & ->); [done|]|rewrite Hidle by done].
    + rewrite size_singleton. lia.
    + rewrite size_empty. lia.
  - intros h Hh. simpl in Hh. apply bool_decide_eq_true in Hh.
    destruct (running s).
    + destruct Hrun as (h' & -> & Ht); [done|]. rewrite Ht in Hh.
      apply elem_of_singleton in Hh. by subst.
    + rewrite Hidle in Hh by done. by apply not_elem_of_empty in Hh.
Qed.

(** ** The main track *)

Lemma mainPlaying_app l1 l2 :
  mainPlaying (l1 ++ l2) =
  fold_left (λ b a, match a with
                    | PlayMain => true
                    | PauseMain => false
                    | _ => b
                    end) l2 (mainPlaying l1).
Proof. apply fold_left_app. Qed.

Lemma mainPlaying_cues l new :
  (∀ a, a ∈ new → ∃ c, a = PlayCue c) → mainPlaying (l ++ new) = mainPlaying l.
Proof.
  intros H. rewrite mainPlaying_app. generalize (mainPlaying l) as b.
  induction new as [|a new IH]; intros b; [done|].
  destruct (H a) as [c ->]; [left|]. simpl. apply IH.
  intros a' Ha'. apply H. by right.
Qed.

(** The main track sounds exactly while the countdown runs: every start
    plays it, the end of the countdown pauses it, and nothing else
    touches it. *)
Theorem main_track_follows_countdown (evs : list Event) :
  let s := run evs initial in
  mainPlaying (audioLog s) = running s
  ∧ (running s = true → mainAudioRef s = true).
Proof.
  induction evs as [|e evs IH] using rev_ind; [done|].
  rewrite run_snoc. cbv zeta in *. destruct IH as (Hmp & Hma).
  pose proof (reachable_Inv evs) as HI.
  set (s := run evs initial) in *.
  assert (∀ s1, running s1 = true → mainAudioRef s1 = true →
                mainPlaying (audioLog s1) = true →
                mainPlaying (audioLog (cueEffect s1)) = running (cueEffect s1)
                ∧ mainAudioRef (cueEffect s1) = true) as Hc.
  { intros s1 Hr Hm Hp.
    destruct (cueEffect_spec s1 Hr) as (new & -> & _ & Hnew & _).
    destruct (cueEffect_frame s1) as (_ & _ & _ & _ & -> & _).
    split; [|done]. rewrite cueEffect_running, Hr. simpl.
    rewrite mainPlaying_cues
      by (intros a Ha; destruct (Hnew a Ha) as (c & -> & _); by exists c).
    unfold pause_actions. rewrite Hm, andb_true_r.
    destruct (Qeq_bool (timeLeft s1) 0); simpl.
    - by rewrite mainPlaying_app.
    - by rewrite app_nil_r. }
  by_event e s He.
  - destruct (Hc (handleStart s)) as [-> ->]; try done.
    simpl. by rewrite mainPlaying_app.
  - done.
  - by destruct (handleDurationChange_frame v s) as (_ & _ & _ & -> & _ & -> & ->).
  - pose proof (tick_running h s HI He) as Hr.
    destruct (Hc (intervalCallback s)) as [-> ->]; try done.
    + by apply Hma.
    + simpl. by rewrite Hmp.
  - simpl. by rewrite mainPlaying_app.
  - done.
Qed.


(** ** The audio cache *)

Lemma fold_preload_iff c sel cache :
  c ∈ fold_left preload_cue sel cache ↔
  c ∈ cache ∨ (c ∈ sel ∧ c ∉ object_prototype_keys).
Proof.
  revert cache. induction sel as [|x sel IH]; intros cache; simpl.
  { split; [by left|]. by intros [?|[?%elem_of_nil _]]. }
  rewrite IH, elem_of_cons. unfold preload_cue.
  destruct (bool_decide (x ∈ cache)) eqn:E1; simpl.
  - apply bool_decide_eq_true in E1. split.
    + intros [?|[? ?]]; [by left | right; split; [by right | done]].
    + intros [?|[[->|?] ?]]; [by left | by left | by right].
  - apply bool_decide_eq_false in E1.
    destruct (bool_decide (x ∈ object_prototype_keys)) eqn:E2.
    + apply bool_decide_eq_true in E2. split.
      * intros [?|[? ?]]; [by left | right; split; [by right | done]].
      * intros [?|[[->|?] ?]]; [by left | done | by right].
    + apply bool_decide_eq_false in E2.
      rewrite elem_of_union, elem_of_singleton. split.
      * intros [[->|?]|[? ?]];
          [right; split; [by left | done] | by left
          | right; split; [by right | done]].
      * intros [?|[[->|?] ?]]; [left; by right | left; by left | by right].
Qed.

(** An [Audio] object, once created for a cue id, is kept for the whole
    session: no event removes one.  A start creates one for each
    selected id not cached yet, except for ids that name a property
    every object inherits (for those the lookup is truthy and nothing
    is created); starting again with the same selection creates none. *)
Theorem audio_cache_only_grows (e : Event) (s : App) :
  cueAudioRefs s ⊆ cueAudioRefs (dispatch e s)
  ∧ (∀ c, c ∈ cueAudioRefs (handleStart s) ↔
          c ∈ cueAudioRefs s
          ∨ (c ∈ selectedCues s ∧ c ∉ object_prototype_keys))
  ∧ cueAudioRefs (handleStart (handleStart s)) = cueAudioRefs (handleStart s).
Proof.
  split_and!.
  - destruct (dispatch_frame e s) as (_ & _ & _ & _ & _ & _ & -> & _).
    destruct (enabled e s); [|done].
    destruct e as [|c|v|h|m]; cbn [handler]; try done.
    + intros c Hc. simpl. apply fold_preload_iff. by left.
    + by destruct (handleDurationChange_frame v s) as (_ & _ & -> & _).
  - intros c. simpl. apply fold_preload_iff.
  - apply set_eq. intros c. simpl. rewrite !fold_preload_iff. tauto.
Qed.

(** ** Time left and progress *)

Lemma reachable_timeLeft_bound evs :
  let s := run evs initial in
  running s = true → (timeLeft s <= duration s * 60)%Q.
Proof.
  induction evs as [|e evs IH] using rev_ind; [done|].
  rewrite run_snoc. cbv zeta in *.
  pose proof (reachable_Inv evs) as HI.
  set (s := run evs initial) in *.
  assert (∀ s1, duration (cueEffect s1) = duration s1) as Hd.
  { intros s1. by destruct (cueEffect_frame s1) as (-> & _). }
  by_event e s He.
  - rewrite cueEffect_timeLeft, Hd. simpl. intros _. lra.
  - done.
  - destruct (handleDurationChange_frame v s) as (_ & _ & _ & -> & _).
    congruence.
  - rewrite cueEffect_timeLeft, Hd. simpl. intros _.
    pose proof (IH (tick_running h s HI He)). lra.
  - done.
  - done.
Qed.

Lemma exactDuration_initial : exactDuration (duration initial).
Proof. exists 0%nat, 60%nat. split_and!; [lia|reflexivity|lia]. Qed.

Lemma exactRun_duration evs :
  Forall exactEvent evs → exactDuration (duration (run evs initial)).
Proof.
  induction evs as [|e evs IH] using rev_ind; intros Hex.
  { apply exactDuration_initial. }
  apply Forall_app in Hex as [Hevs He%Forall_inv]. specialize (IH Hevs).
  rewrite run_snoc. destruct (dispatch_frame e (run evs initial)) as [-> _].
  destruct (enabled e (run evs initial)); [|done].
  destruct e as [|c|[|v]|h|m]; try done.
  simpl. destruct (Qlt_le_dec 0 v); [by apply He | done].
Qed.


Lemma progress_of_bounded (x : App) :
  (0 < duration x)%Q →
  (running x = true → (timeLeft x <= duration x * 60)%Q) →
  (0 <= progressPercent x)%Q
  ∧ ((0 <= timeLeft x)%Q → (progressPercent x <= 100)%Q)
  ∧ (running x = true → ¬ (timeLeft x == 0)%Q → (0 <= timeLeft x)%Q →
     (progressPercent x < 100)%Q)
  ∧ (running x = true → (timeLeft x == 0)%Q → (progressPercent x == 100)%Q)
  ∧ (running x = true → (timeLeft x == duration x * 60)%Q →
     (progressPercent x == 0)%Q).
Proof.
  intros Hd Hb. unfold progressPercent. destruct (running x) eqn:Hr.
  - specialize (Hb eq_refl).
    assert (timeLeft x / (duration x * 60) <= 1)%Q as Hx1
      by (apply Qle_shift_div_r; lra).
    assert (timeLeft x / (duration x * 60) * (duration x * 60) == timeLeft x)%Q
      as Hmul by (field; lra).
    set (q := (timeLeft x / (duration x * 60))%Q) in *.
    split_and!.
    + lra.
    + intros Hpos. assert (0 <= q)%Q; [|lra]. apply Qle_shift_div_l; lra.
    + intros _ Hnz Hpos. assert (0 < q)%Q; [|lra].
      apply Qlt_shift_div_l; [lra|].
      destruct (Qlt_le_dec 0 (timeLeft x)) as [?|?]; [lra|]. destruct Hnz. lra.
    + intros _ Hz. assert (q == 0)%Q as ->; [|lra].
      unfold q. rewrite Hz. field. lra.
    + intros _ Hfull. assert (q == 1)%Q as ->; [|lra].
      unfold q. rewrite Hfull. field. lra.
  - split_and!; try done; intros; lra.
Qed.

(** As long as every duration entered is one whose product by 60 is
    computed without rounding, the progress shown is never negative,
    in the render that follows a handler as in the one that follows
    the effect, and not above 100 as long as the time left is not
    negative.  It is 0 while the countdown is not running and right
    after a start; the render in which [timeLeft] has just become 0
    shows 100, and once the effect has stopped the countdown the
    progress is back at 0. *)
Theorem progress_bounds (evs : list Event) (e : Event) :
  let s := run evs initial in
  let r := handler e s in
  Forall exactEvent evs →
  exactDuration (duration s)
  ∧ (0 <= progressPercent s)%Q
  ∧ ((0 <= timeLeft s)%Q → (progressPercent s < 100)%Q)
  ∧ (running s = false → progressPercent s = 0%Q)
  ∧ (enabled e s = true →
       (0 <= progressPercent r)%Q
       ∧ ((0 <= timeLeft r)%Q → (progressPercent r <= 100)%Q)
       ∧ (e = ClickStart → (progressPercent r == 0)%Q)
       ∧ (running r = true → (timeLeft r == 0)%Q →
          (progressPercent r == 100)%Q
          ∧ progressPercent (dispatch e s) = 0%Q)).
Proof.
  intros s r Hex. pose proof (reachable_Inv evs) as HI. fold s in HI.
  pose proof (wf_duration s (inv_wf s HI)) as Hd.
  pose proof (reachable_timeLeft_bound evs) as Hb. cbv zeta in Hb. fold s in Hb.
  destruct (progress_of_bounded s Hd Hb) as (Hs0 & Hs100 & Hslt & _).
  split_and!; [by apply exactRun_duration|done| | |].
  - intros Hpos. destruct (running s) eqn:Hr.
    + apply Hslt; [done|by apply (inv_nonzero s HI)|done].
    + unfold progressPercent. rewrite Hr. lra.
  - intros Hr. unfold progressPercent. by rewrite Hr.
  - intros He.
    assert ((0 < duration r)%Q
            ∧ (running r = true → (timeLeft r <= duration r * 60)%Q)) as [Hdr Hbr].
    { unfold r. destruct e as [|c|v|h|m]; simpl in He; cbn [handler].
      - simpl. split; [done|]. intros _. lra.
      - done.
      - apply negb_true_iff in He.
        destruct (handleDurationChange_frame v s) as (_ & _ & _ & -> & _).
        split; [|congruence].
        destruct v as [|v]; simpl; [done|]. by destruct (Qlt_le_dec 0 v).
      - apply bool_decide_eq_true in He. simpl. split; [done|]. intros _.
        pose proof (Hb (tick_running h s HI He)). lra.
      - done. }
    destruct (progress_of_bounded r Hdr Hbr) as (Hr0 & Hr100 & _ & Hrz & Hrfull).
    split_and!; [done|done| |].
    + intros ->. apply Hrfull; [done|]. unfold r. simpl. lra.
    + intros Hrun Hz. split; [by apply Hrz|].
      assert (deps_changed s r = true → dispatch e s = cueEffect r) as Hdisp.
      { intros Hdc. unfold dispatch. rewrite He, rerender_eq. fold r. by rewrite Hdc. }
      assert (running (cueEffect r) = false) as Hstop.
      { rewrite cueEffect_running, Hrun. simpl.
        apply negb_false_iff, Qeq_bool_iff, Hz. }
      unfold progressPercent at 1.
      destruct (deps_changed s r) eqn:Hdc.
      * by rewrite Hdisp, Hstop.
      * exfalso. unfold deps_changed in Hdc.
        apply orb_false_iff in Hdc as [Ht Hrr].
        apply negb_false_iff, Qeq_bool_iff in Ht.
        apply negb_false_iff, eqb_prop in Hrr.
        apply (inv_nonzero s HI); [congruence|]. by rewrite Ht.
Qed.

Lemma progress_bounds_witness :
  let evs := [ChangeDuration (Finite (1 # 4)); ClickStart] in
  Forall exactEvent evs
  ∧ (0 <= progressPercent (run evs initial))%Q
  ∧ (progressPercent (handler (Tick 0%nat) (run evs initial)) <= 100)%Q.
Proof.
  intros evs.
  assert (Forall exactEvent evs) as Hex.
  { repeat constructor. intros _. exists 2%nat, 1%nat.
    split_and!; [lia|reflexivity|lia]. }
  assert (enabled (Tick 0%nat) (run evs initial) = true) as He
    by (vm_compute; reflexivity).
  destruct (progress_bounds evs (Tick 0%nat) Hex) as (_ & H0 & _ & _ & Hr).
  destruct (Hr He) as (_ & H100 & _).
  split_and!; [done|done|]. apply H100. vm_compute. discriminate.
Defined.

(** ** Counting down *)













(** ** Cues over a whole countdown *)





(** ** Cues due at the same tick *)

Lemma dueCues_cons now played c0 T0 sch :
  dueCues now played ((c0, T0) :: sch) =
  if Qeq_bool now T0 && negb (bool_decide (c0 ∈ played))
  then c0 :: dueCues now played sch else dueCues now played sch.
Proof.
  unfold dueCues. destruct (Qeq_bool now T0 && _) eqn:E.
  - by rewrite filter_cons_True.
  - rewrite filter_cons_False; [done|]. simpl. by rewrite E.
Qed.

Lemma dueCues_fresh now played c0 sch :
  c0 ∉ (fst <$> sch) →
  dueCues now ({[c0]} ∪ played) sch = dueCues now played sch.
Proof.
  induction sch as [|[c T] sch IH]; [done|]. csimpl.
  intros [Hc Hsch]%not_elem_of_cons. rewrite !dueCues_cons, IH by done.
  assert (bool_decide (c ∈ {[c0]} ∪ played) = bool_decide (c ∈ played)) as ->;
    [|done].
  apply bool_decide_ext. rewrite elem_of_union, elem_of_singleton.
  split; [intros [?|?]; [congruence|done] | by right].
Qed.

Lemma match_cues_due now cache sch played log :
  NoDup (fst <$> sch) → (∀ c T, (c, T) ∈ sch → c ∈ cache) →
  snd (match_cues now cache sch (played, log))
  = log ++ (PlayCue <$> dueCues now played sch).
Proof.
  revert played log. induction sch as [|[c0 T0] sch IH]; intros played log.
  { intros _ _. simpl. by rewrite app_nil_r. }
  intros Hnd Hcache. rewrite fmap_cons in Hnd.
  apply NoDup_cons in Hnd as [Hc0 Hnd].
  rewrite match_cues_cons, dueCues_cons.
  destruct (Qeq_bool now T0 && negb (bool_decide (c0 ∈ played))).
  - rewrite bool_decide_eq_true_2 by (apply (Hcache c0 T0); left).
    rewrite IH; [|done|intros c T ?; apply (Hcache c T); by right].
    rewrite dueCues_fresh by done. rewrite fmap_cons, <- app_assoc. done.
  - apply IH; [done|]. intros c T ?. apply (Hcache c T). by right.
Qed.

Lemma firedCues_PlayCue (l : list string) : firedCues (PlayCue <$> l) = l.
Proof.
  induction l as [|c l IH]; [done|]. rewrite fmap_cons.
  change (PlayCue c :: (PlayCue <$> l)) with ([PlayCue c] ++ (PlayCue <$> l)).
  by rewrite firedCues_app, IH.
Qed.

Lemma cueEffect_audioLog s :
  running s = true →
  audioLog (cueEffect s)
  = snd (match_cues (timeLeft s) (cueAudioRefs s) (cueScheduleRef s)
           (playedCuesRef s, audioLog s ++ pause_actions s)).
Proof.
  intros Hr. unfold cueEffect. rewrite Hr. cbn [negb audioLog].
  unfold pause_actions.
  destruct (Qeq_bool (timeLeft s) 0 && mainAudioRef s); [done|].
  by rewrite app_nil_r.
Qed.

(** A tick plays every cue that is scheduled at the new value of
    [timeLeft] and not yet in the fired set: all of them in that one
    tick, each once, in the order of the schedule. *)
Theorem tick_fires_all_due_cues (evs : list Event) (h : nat) :
  let s := run evs initial in
  let s' := dispatch (Tick h) s in
  h ∈ timers s →
  firedCues (newActions s s')
  = dueCues (timeLeft s - 1) (playedCuesRef s) (cueScheduleRef s).
Proof.
  intros s s' Hh. pose proof (reachable_Inv evs) as HI. fold s in HI.
  pose proof (tick_running h s HI Hh) as Hr.
  pose proof (inv_wf s HI) as Hwf.
  assert (audioLog s' = audioLog s ++ pause_actions (intervalCallback s)
            ++ (PlayCue <$> dueCues (timeLeft s - 1) (playedCuesRef s)
                                    (cueScheduleRef s))) as Hl.
  { unfold s'. rewrite dispatch_Tick, cueEffect_audioLog by done.
    rewrite match_cues_due; [by rewrite <- app_assoc|apply Hwf|apply Hwf]. }
  rewrite (newActions_app _ _ _ Hl), firedCues_app, firedCues_pause.
  simpl. apply firedCues_PlayCue.
Qed.

Lemma tick_fires_all_due_cues_witness :
  let s := run (firstn 57 first_run) initial in
  firedCues (newActions s (dispatch (Tick 0%nat) s)) = ["gameover"].
Proof.
  intros s.
  assert (0%nat ∈ timers s) as Hh.
  { replace (timers s) with ({[0%nat]} : gset nat) by (vm_compute; reflexivity).
    by apply elem_of_singleton. }
  etrans; [exact (tick_fires_all_due_cues (firstn 57 first_run) 0%nat Hh)|].
  vm_compute. reflexivity.
Defined.

(** ** Trap events and the countdown *)

Lemma match_cues_fst_log now cache sch played log log' :
  fst (match_cues now cache sch (played, log))
  = fst (match_cues now cache sch (played, log')).
Proof.
  revert played log log'. induction sch as [|[c0 T0] sch IH]; intros played log log';
    [done|].
  rewrite !match_cues_cons.
  destruct (Qeq_bool now T0 && negb (bool_decide (c0 ∈ played))); apply IH.
Qed.

Lemma countdownState_cueEffect s :
  countdownState (cueEffect s) = countdownState (cueEffect (countdownState s)).
Proof.
  unfold cueEffect. cbn [running countdownState].
  destruct (running s); cbn [negb]; [|done].
  unfold countdownState. cbn. f_equal. apply match_cues_fst_log.
Qed.

Lemma countdownState_handler e s :
  countdownState (handler e s) = countdownState (handler e (countdownState s)).
Proof.
  destruct e as [|c|v|h|m]; try done.
  destruct v as [|v]; simpl; [done|]. by destruct (Qlt_le_dec 0 v).
Qed.

Lemma countdownState_dispatch e s :
  countdownState (dispatch e s) = countdownState (dispatch e (countdownState s)).
Proof.
  unfold dispatch.
  assert (enabled e (countdownState s) = enabled e s) as -> by (by destruct e).
  destruct (enabled e s); [|done]. rewrite !rerender_eq.
  pose proof (countdownState_handler e s) as Hh.
  assert (deps_changed (countdownState s) (handler e (countdownState s))
          = deps_changed s (handler e s)) as ->.
  { unfold deps_changed.
    change (timeLeft (handler e (countdownState s)))
      with (timeLeft (countdownState (handler e (countdownState s)))).
    change (running (handler e (countdownState s)))
      with (running (countdownState (handler e (countdownState s)))).
    by rewrite <- Hh. }
  destruct (deps_changed s (handler e s)); [|done].
  rewrite countdownState_cueEffect, Hh. symmetry. apply countdownState_cueEffect.
Qed.

Lemma countdownState_run evs s1 s2 :
  countdownState s1 = countdownState s2 →
  countdownState (run evs s1) = countdownState (run evs s2).
Proof.
  revert s1 s2. induction evs as [|e evs IH]; intros s1 s2 H; [done|].
  simpl. apply IH.
  by rewrite (countdownState_dispatch e s1), H, <- countdownState_dispatch.
Qed.

(** Trap events have no effect on the countdown: whatever the trap
    events delivered and wherever they fall among the other events, the
    duration, the selection, the time left, the run state, the
    schedule, the fired set, the audio cache and the interval are the
    same as without them. *)
Theorem traps_leave_countdown_alone (evs : list Event) (s : App) :
  countdownState (run evs s) = countdownState (run (withoutTraps evs) s).
Proof.
  revert s. induction evs as [|e evs IH]; intros s; [done|].
  unfold withoutTraps. destruct (isTrap e) eqn:E.
  - rewrite filter_cons_False by (by rewrite E). simpl. rewrite IH.
    apply countdownState_run. destruct e; try done.
    by rewrite dispatch_TrapTriggered.
  - rewrite filter_cons_True by done. simpl. apply IH.
Qed.
